(** * bimap: a bidirectional map with in-place and snapshot freezing

    A shallow embedding of [bimap.go] and [immutable.go].

    Go maps are reference values and both bimap types are handled through
    pointers, so the embedding works over an explicit heap: a store of
    [map[K]V] objects, a store of [map[V]K] objects and a store for each
    of the two struct types.  Methods are state-passing functions that
    return either a value or a panic, together with the heap as it is at
    that moment.  The two kinds of map live in separate stores: no
    constructor of the package puts one map object in both fields of a
    struct.

    The [sync.RWMutex] field is not part of the model: every method of
    [*BiMap] takes the lock on entry and releases it by [defer], so each
    call is one atomic step of the sequential semantics given here. *)

From stdpp Require Import base option list gmap fin_maps strings.
From Stdlib Require Import ZArith.

Local Open Scope Z_scope.

(** ** Runtime values *)

(** Heap addresses.  An address absent from a store plays the role of
    [nil]. *)
Definition loc := positive.

(** The zero value of a Go type, returned by a failed map lookup. *)
Class GoZero (T : Type) := go_zero : T.

Global Instance string_zero : GoZero string := EmptyString.
Global Instance int_zero : GoZero Z := 0.

(** Outcome of a call: normal return or panic with its message. *)
Inductive res (A : Type) : Type :=
| Val (a : A)
| Panic (msg : string).
Global Arguments Val {A} a.
Global Arguments Panic {A} msg.

(** ** Stores of Go maps *)

Section store.
Context `{Countable A} {B : Type}.

(** [m] is the contents of the map object at [l]; a nil map reads as
    the empty map. *)
Definition st_at (s : gmap loc (gmap A B)) (l : loc) : gmap A B :=
  default ∅ (s !! l).

(** [v, ok := m[a]] *)
Definition st_get `{GoZero B} (s : gmap loc (gmap A B)) (l : loc) (a : A)
    : B * bool :=
  match st_at s l !! a with
  | Some b => (b, true)
  | None => (go_zero, false)
  end.

(** [m[a] = b]; [None] stands for the run-time panic on a nil map. *)
Definition st_set (s : gmap loc (gmap A B)) (l : loc) (a : A) (b : B)
    : option (gmap loc (gmap A B)) :=
  match s !! l with
  | Some m => Some (<[l := <[a := b]> m]> s)
  | None => None
  end.

(** [delete(m, a)]; a no-op on a nil map. *)
Definition st_delete (s : gmap loc (gmap A B)) (l : loc) (a : A)
    : gmap loc (gmap A B) :=
  match s !! l with
  | Some m => <[l := delete a m]> s
  | None => s
  end.

(** [make(map[A]B, n)]: a new empty map at an unused address. *)
Definition st_make (s : gmap loc (gmap A B)) : loc * gmap loc (gmap A B) :=
  let l := fresh (dom s) in (l, <[l := ∅]> s).
End store.

(** ** The heap and the monad of Go computations *)

(** [type BiMap struct { s sync.RWMutex; immutable bool; forward map[K]V;
    inverse map[V]K }] *)
Record BiMap : Type := mkBiMap {
  BiMap_immutable : bool;
  BiMap_forward : loc;
  BiMap_inverse : loc;
}.

(** [type ImmutableBiMap struct { forward map[K]V; inverse map[V]K }] *)
Record ImmutableBiMap : Type := mkImmutableBiMap {
  ImmutableBiMap_forward : loc;
  ImmutableBiMap_inverse : loc;
}.

Record heap (K V : Type) `{Countable K, Countable V} : Type := mkHeap {
  kv_maps : gmap loc (gmap K V);
  vk_maps : gmap loc (gmap V K);
  bimaps : gmap loc BiMap;
  ibimaps : gmap loc ImmutableBiMap;
}.
Global Arguments mkHeap {K V _ _ _ _} _ _ _ _.
Global Arguments kv_maps {K V _ _ _ _} _.
Global Arguments vk_maps {K V _ _ _ _} _.
Global Arguments bimaps {K V _ _ _ _} _.
Global Arguments ibimaps {K V _ _ _ _} _.

Definition go (K V : Type) `{Countable K, Countable V} (A : Type) : Type :=
  heap K V → res A * heap K V.

Section monad.
Context `{Countable K, Countable V}.

Global Instance go_ret : MRet (go K V) := λ A a h, (Val a, h).

Global Instance go_bind : MBind (go K V) := λ A B f m h,
  match m h with
  | (Val a, h') => f a h'
  | (Panic msg, h') => (Panic msg, h')
  end.

(** [panic(msg)] *)
Definition panic {A} (msg : string) : go K V A := λ h, (Panic msg, h).

(** A loop body run once for each element of [l], in the order of [l]. *)
Fixpoint for_each {A} (l : list A) (body : A → go K V unit) : go K V unit :=
  match l with
  | [] => mret tt
  | x :: l' => body x ;; for_each l' body
  end.
End monad.

(** ** Heap primitives *)

Section prims.
Context `{Countable K, Countable V, GoZero K, GoZero V}.

Definition set_kv_maps (s : gmap loc (gmap K V)) (h : heap K V) : heap K V :=
  mkHeap s (vk_maps h) (bimaps h) (ibimaps h).
Definition set_vk_maps (s : gmap loc (gmap V K)) (h : heap K V) : heap K V :=
  mkHeap (kv_maps h) s (bimaps h) (ibimaps h).
Definition set_bimaps (s : gmap loc BiMap) (h : heap K V) : heap K V :=
  mkHeap (kv_maps h) (vk_maps h) s (ibimaps h).
Definition set_ibimaps (s : gmap loc ImmutableBiMap) (h : heap K V) : heap K V :=
  mkHeap (kv_maps h) (vk_maps h) (bimaps h) s.

Definition nil_deref : string :=
  "invalid memory address or nil pointer dereference".
Definition nil_map_write : string := "assignment to entry in nil map".

(** Operations on a [map[K]V] held at address [l]. *)
Definition kv_make : go K V loc := λ h,
  let '(l, s) := st_make (kv_maps h) in (Val l, set_kv_maps s h).
Definition kv_get (l : loc) (k : K) : go K V (V * bool) := λ h,
  (Val (st_get (kv_maps h) l k), h).
Definition kv_set (l : loc) (k : K) (v : V) : go K V unit := λ h,
  match st_set (kv_maps h) l k v with
  | Some s => (Val tt, set_kv_maps s h)
  | None => (Panic nil_map_write, h)
  end.
Definition kv_delete (l : loc) (k : K) : go K V unit := λ h,
  (Val tt, set_kv_maps (st_delete (kv_maps h) l k) h).
Definition kv_len (l : loc) : go K V Z := λ h,
  (Val (Z.of_nat (size (st_at (kv_maps h) l))), h).

(** Operations on a [map[V]K] held at address [l]. *)
Definition vk_make : go K V loc := λ h,
  let '(l, s) := st_make (vk_maps h) in (Val l, set_vk_maps s h).
Definition vk_get (l : loc) (v : V) : go K V (K * bool) := λ h,
  (Val (st_get (vk_maps h) l v), h).
Definition vk_set (l : loc) (v : V) (k : K) : go K V unit := λ h,
  match st_set (vk_maps h) l v k with
  | Some s => (Val tt, set_vk_maps s h)
  | None => (Panic nil_map_write, h)
  end.
Definition vk_delete (l : loc) (v : V) : go K V unit := λ h,
  (Val tt, set_vk_maps (st_delete (vk_maps h) l v) h).
Definition vk_len (l : loc) : go K V Z := λ h,
  (Val (Z.of_nat (size (st_at (vk_maps h) l))), h).
End prims.

(** ** Struct objects *)

Section structs.
Context `{Countable K, Countable V}.

(** [&BiMap{...}]: a new struct at an unused address. *)
Definition new_BiMap (B : BiMap) : go K V loc := λ h,
  let b := fresh (dom (bimaps h)) in (Val b, set_bimaps (<[b := B]> (bimaps h)) h).

(** Field reads [b.immutable], [b.forward], [b.inverse] through a
    [*BiMap]; a nil receiver panics. *)
Definition load_BiMap {A} (fld : BiMap → A) (b : loc) : go K V A := λ h,
  match bimaps h !! b with
  | Some B => (Val (fld B), h)
  | None => (Panic nil_deref, h)
  end.
Definition load_immutable : loc → go K V bool := load_BiMap BiMap_immutable.
Definition load_forward : loc → go K V loc := load_BiMap BiMap_forward.
Definition load_inverse : loc → go K V loc := load_BiMap BiMap_inverse.

(** [b.immutable = x] *)
Definition store_immutable (b : loc) (x : bool) : go K V unit := λ h,
  match bimaps h !! b with
  | Some B =>
      (Val tt, set_bimaps (<[b := mkBiMap x (BiMap_forward B) (BiMap_inverse B)]> (bimaps h)) h)
  | None => (Panic nil_deref, h)
  end.

(** [&ImmutableBiMap{...}] and the field reads through an
    [*ImmutableBiMap]. *)
Definition new_ImmutableBiMap (B : ImmutableBiMap) : go K V loc := λ h,
  let b := fresh (dom (ibimaps h)) in (Val b, set_ibimaps (<[b := B]> (ibimaps h)) h).
Definition load_ImmutableBiMap {A} (fld : ImmutableBiMap → A) (b : loc)
    : go K V A := λ h,
  match ibimaps h !! b with
  | Some B => (Val (fld B), h)
  | None => (Panic nil_deref, h)
  end.
Definition iload_forward : loc → go K V loc :=
  load_ImmutableBiMap ImmutableBiMap_forward.
Definition iload_inverse : loc → go K V loc :=
  load_ImmutableBiMap ImmutableBiMap_inverse.
End structs.

(** ** bimap.go *)

Section bimap_go.
Context `{Countable K, Countable V, GoZero K, GoZero V}.

(** Go leaves the iteration order of [range] over a map unspecified.
    The order is a parameter of the model: the properties that depend on
    it are proved for every enumeration of the entries. *)
Variable kv_order : gmap K V → list (K * V).
Variable vk_order : gmap V K → list (V * K).

(** [for k, v := range m { body }] over the map at [l].  The entries are
    those present when the loop starts; no loop of the package writes to
    the map it ranges over. *)
Definition kv_range (l : loc) (body : K → V → go K V unit) : go K V unit :=
  λ h, for_each (kv_order (st_at (kv_maps h) l)) (λ kv, body kv.1 kv.2) h.
Definition vk_range (l : loc) (body : V → K → go K V unit) : go K V unit :=
  λ h, for_each (vk_order (st_at (vk_maps h) l)) (λ vk, body vk.1 vk.2) h.

Definition immutable_msg : string := "Cannot modify immutable map".

(** bimap.go, lines 15-17 *)
Definition NewBiMap : go K V loc :=
  fwd ← kv_make;
  inv ← vk_make;
  new_BiMap (mkBiMap false fwd inv).

(** bimap.go, lines 29-40 *)
Definition Insert (b : loc) (k : K) (v : V) : go K V unit :=
  imm ← load_immutable b;
  if (imm : bool) then panic immutable_msg else
  fwd ← load_forward b;
  '(_, ok) ← kv_get fwd k;
  (if (ok : bool)
   then inv ← load_inverse b;
        fwd ← load_forward b;
        '(old, _) ← kv_get fwd k;
        vk_delete inv old
   else mret tt);;
  fwd ← load_forward b;
  kv_set fwd k v;;
  inv ← load_inverse b;
  vk_set inv v k.

(** bimap.go, lines 20-26 *)
Definition NewBiMapFromMap (forwardMap : loc) : go K V loc :=
  biMap ← NewBiMap;
  kv_range forwardMap (λ k v, Insert biMap k v);;
  mret biMap.

Definition ExistsByKey (b : loc) (k : K) : go K V bool :=
  fwd ← load_forward b;
  '(_, ok) ← kv_get fwd k;
  mret ok.

Definition Exists (b : loc) (k : K) : go K V bool := ExistsByKey b k.

Definition ExistsByValue (b : loc) (k : V) : go K V bool :=
  inv ← load_inverse b;
  '(_, ok) ← vk_get inv k;
  mret ok.

Definition ExistsInverse (b : loc) (k : V) : go K V bool := ExistsByValue b k.

Definition GetByKey (b : loc) (k : K) : go K V (V * bool) :=
  fwd ← load_forward b;
  '(v, ok) ← kv_get fwd k;
  mret (v, ok).

Definition Get (b : loc) (k : K) : go K V (V * bool) := GetByKey b k.

Definition GetByValue (b : loc) (v : V) : go K V (K * bool) :=
  inv ← load_inverse b;
  '(k, ok) ← vk_get inv v;
  mret (k, ok).

Definition GetInverse (b : loc) (v : V) : go K V (K * bool) := GetByValue b v.

Definition GetByKeyWithFallback (b : loc) (k : K) (fallback : V) : go K V V :=
  '(v, ok) ← GetByKey b k;
  if (ok : bool) then mret v else mret fallback.

Definition GetByValueWithFallback (b : loc) (v : V) (fallback : K) : go K V K :=
  '(k, ok) ← GetByValue b v;
  if (ok : bool) then mret k else mret fallback.

(** bimap.go, lines 111-123 *)
Definition DeleteByKey (b : loc) (k : K) : go K V unit :=
  imm ← load_immutable b;
  if (imm : bool) then panic immutable_msg else
  fwd ← load_forward b;
  '(val, ok) ← kv_get fwd k;
  if negb ok then mret tt else
  fwd ← load_forward b;
  kv_delete fwd k;;
  inv ← load_inverse b;
  vk_delete inv val.

Definition Delete (b : loc) (k : K) : go K V unit := DeleteByKey b k.

(** bimap.go, lines 131-143 *)
Definition DeleteByValue (b : loc) (v : V) : go K V unit :=
  imm ← load_immutable b;
  if (imm : bool) then panic immutable_msg else
  inv ← load_inverse b;
  '(key, ok) ← vk_get inv v;
  if negb ok then mret tt else
  inv ← load_inverse b;
  vk_delete inv v;;
  fwd ← load_forward b;
  kv_delete fwd key.

Definition DeleteInverse (b : loc) (v : V) : go K V unit := DeleteByValue b v.

Definition Size (b : loc) : go K V Z :=
  fwd ← load_forward b;
  kv_len fwd.

(** bimap.go, lines 158-162 *)
Definition MakeImmutable (b : loc) : go K V unit :=
  store_immutable b true.

(** bimap.go, lines 166-178 *)
Definition Freeze (b : loc) : go K V loc :=
  fwd ← load_forward b;
  _ ← kv_len fwd;
  forward ← kv_make;
  inv ← load_inverse b;
  _ ← vk_len inv;
  inverse ← vk_make;
  fwd ← load_forward b;
  kv_range fwd (λ k v, kv_set forward k v);;
  inv ← load_inverse b;
  vk_range inv (λ v k, vk_set inverse v k);;
  new_ImmutableBiMap (mkImmutableBiMap forward inverse).

(** bimap.go, lines 181-188: the live maps, not copies. *)
Definition GetInverseMap (b : loc) : go K V loc := load_inverse b.

Definition GetForwardMap (b : loc) : go K V loc := load_forward b.

(** [Lock] and [Unlock] act on the mutex only; what remains of them in
    the model is the dereference of the receiver. *)
Definition Lock (b : loc) : go K V unit := _ ← load_immutable b; mret tt.
Definition Unlock (b : loc) : go K V unit := _ ← load_immutable b; mret tt.
End bimap_go.

(** ** immutable.go *)

Module Immutable.
Section immutable_go.
Context `{Countable K, Countable V, GoZero K, GoZero V}.
Variable kv_order : gmap K V → list (K * V).
Variable vk_order : gmap V K → list (V * K).

(** immutable.go, lines 11-19 *)
Definition NewImmutableBiMapFromMap (forwardMap : loc) : go K V loc :=
  _ ← kv_len forwardMap;
  forward ← kv_make;
  _ ← kv_len forwardMap;
  inverse ← vk_make;
  kv_range kv_order forwardMap (λ k v,
    kv_set forward k v;;
    vk_set inverse v k);;
  new_ImmutableBiMap (mkImmutableBiMap forward inverse).

Definition GetByKey (b : loc) (k : K) : go K V (V * bool) :=
  fwd ← iload_forward b;
  '(v, ok) ← kv_get fwd k;
  mret (v, ok).

Definition GetByValue (b : loc) (v : V) : go K V (K * bool) :=
  inv ← iload_inverse b;
  '(k, ok) ← vk_get inv v;
  mret (k, ok).

(** immutable.go, lines 34-47 *)
Definition GetByKeyWithFallback (b : loc) (k : K) (fallback : V) : go K V V :=
  fwd ← iload_forward b;
  '(v, ok) ← kv_get fwd k;
  if (ok : bool) then mret v else mret fallback.

Definition GetByValueWithFallback (b : loc) (v : V) (fallback : K) : go K V K :=
  inv ← iload_inverse b;
  '(k, ok) ← vk_get inv v;
  if (ok : bool) then mret k else mret fallback.

Definition ExistsByKey (b : loc) (k : K) : go K V bool :=
  fwd ← iload_forward b;
  '(_, ok) ← kv_get fwd k;
  mret ok.

Definition ExistsByValue (b : loc) (v : V) : go K V bool :=
  inv ← iload_inverse b;
  '(_, ok) ← vk_get inv v;
  mret ok.

Definition Size (b : loc) : go K V Z :=
  fwd ← iload_forward b;
  kv_len fwd.

(** immutable.go, lines 67-82: copies, made entry by entry. *)
Definition GetForwardMap (b : loc) : go K V loc :=
  fwd ← iload_forward b;
  _ ← kv_len fwd;
  m ← kv_make;
  fwd ← iload_forward b;
  kv_range kv_order fwd (λ k v, kv_set m k v);;
  mret m.

Definition GetInverseMap (b : loc) : go K V loc :=
  inv ← iload_inverse b;
  _ ← vk_len inv;
  m ← vk_make;
  inv ← iload_inverse b;
  vk_range vk_order inv (λ v k, vk_set m v k);;
  mret m.
End immutable_go.
End Immutable.

(** ** Abstract views of a heap *)

Section views.
Context `{Countable K, Countable V}.

(** The pair set seen through the [*BiMap] at [b]. *)
Definition fwd_of (h : heap K V) (b : loc) : gmap K V :=
  match bimaps h !! b with
  | Some B => st_at (kv_maps h) (BiMap_forward B)
  | None => ∅
  end.
Definition inv_of (h : heap K V) (b : loc) : gmap V K :=
  match bimaps h !! b with
  | Some B => st_at (vk_maps h) (BiMap_inverse B)
  | None => ∅
  end.
Definition frozen (h : heap K V) (b : loc) : bool :=
  match bimaps h !! b with
  | Some B => BiMap_immutable B
  | None => false
  end.

(** [b] points to a mutable-variant struct whose two maps have been
    made (neither is nil). *)
Definition valid_BiMap (h : heap K V) (b : loc) : Prop :=
  ∃ B, bimaps h !! b = Some B
       ∧ is_Some (kv_maps h !! BiMap_forward B)
       ∧ is_Some (vk_maps h !! BiMap_inverse B).

(** The same for the [*ImmutableBiMap] at [b]. *)
Definition ifwd_of (h : heap K V) (b : loc) : gmap K V :=
  match ibimaps h !! b with
  | Some B => st_at (kv_maps h) (ImmutableBiMap_forward B)
  | None => ∅
  end.
Definition iinv_of (h : heap K V) (b : loc) : gmap V K :=
  match ibimaps h !! b with
  | Some B => st_at (vk_maps h) (ImmutableBiMap_inverse B)
  | None => ∅
  end.
Definition valid_ImmutableBiMap (h : heap K V) (b : loc) : Prop :=
  ∃ B, ibimaps h !! b = Some B
       ∧ is_Some (kv_maps h !! ImmutableBiMap_forward B)
       ∧ is_Some (vk_maps h !! ImmutableBiMap_inverse B).
End views.

(** ** Operation sequences *)

(** The three mutating methods of [*BiMap]. *)
Inductive mutation (K V : Type) : Type :=
| MInsert (k : K) (v : V)
| MDeleteByKey (k : K)
| MDeleteByValue (v : V).
Global Arguments MInsert {K V} k v.
Global Arguments MDeleteByKey {K V} k.
Global Arguments MDeleteByValue {K V} v.

(** The read methods shared by both variants, and what they return. *)
Inductive query (K V : Type) : Type :=
| QGetByKey (k : K)
| QGetByValue (v : V)
| QGetByKeyWithFallback (k : K) (fallback : V)
| QGetByValueWithFallback (v : V) (fallback : K)
| QExistsByKey (k : K)
| QExistsByValue (v : V)
| QSize.
Global Arguments QGetByKey {K V} k.
Global Arguments QGetByValue {K V} v.
Global Arguments QGetByKeyWithFallback {K V} k fallback.
Global Arguments QGetByValueWithFallback {K V} v fallback.
Global Arguments QExistsByKey {K V} k.
Global Arguments QExistsByValue {K V} v.
Global Arguments QSize {K V}.

Inductive answer (K V : Type) : Type :=
| AValueOk (r : V * bool)
| AKeyOk (r : K * bool)
| AValue (v : V)
| AKey (k : K)
| ABool (x : bool)
| AInt (n : Z).
Global Arguments AValueOk {K V} r.
Global Arguments AKeyOk {K V} r.
Global Arguments AValue {K V} v.
Global Arguments AKey {K V} k.
Global Arguments ABool {K V} x.
Global Arguments AInt {K V} n.

Section sequences.
Context `{Countable K, Countable V, GoZero K, GoZero V}.

Definition mutate (b : loc) (m : mutation K V) : go K V unit :=
  match m with
  | MInsert k v => Insert b k v
  | MDeleteByKey k => DeleteByKey b k
  | MDeleteByValue v => DeleteByValue b v
  end.

(** The outcome and heap after each operation of [ms] in turn.  A
    panicking call leaves the heap as it is at the panic; the caller
    may recover and go on. *)
Fixpoint trace (b : loc) (ms : list (mutation K V)) (h : heap K V)
    : list (res unit * heap K V) :=
  match ms with
  | [] => []
  | m :: ms' => mutate b m h :: trace b ms' (mutate b m h).2
  end.

Definition ask (b : loc) (q : query K V) : go K V (answer K V) :=
  match q with
  | QGetByKey k => r ← GetByKey b k; mret (AValueOk r)
  | QGetByValue v => r ← GetByValue b v; mret (AKeyOk r)
  | QGetByKeyWithFallback k d => r ← GetByKeyWithFallback b k d; mret (AValue r)
  | QGetByValueWithFallback v d => r ← GetByValueWithFallback b v d; mret (AKey r)
  | QExistsByKey k => r ← ExistsByKey b k; mret (ABool r)
  | QExistsByValue v => r ← ExistsByValue b v; mret (ABool r)
  | QSize => r ← Size b; mret (AInt r)
  end.

Definition iask (b : loc) (q : query K V) : go K V (answer K V) :=
  match q with
  | QGetByKey k => r ← Immutable.GetByKey b k; mret (AValueOk r)
  | QGetByValue v => r ← Immutable.GetByValue b v; mret (AKeyOk r)
  | QGetByKeyWithFallback k d =>
      r ← Immutable.GetByKeyWithFallback b k d; mret (AValue r)
  | QGetByValueWithFallback v d =>
      r ← Immutable.GetByValueWithFallback b v d; mret (AKey r)
  | QExistsByKey k => r ← Immutable.ExistsByKey b k; mret (ABool r)
  | QExistsByValue v => r ← Immutable.ExistsByValue b v; mret (ABool r)
  | QSize => r ← Immutable.Size b; mret (AInt r)
  end.

(** [v, ok := m[a]] on the contents [m] of a map. *)
Definition lookup_ok {A B} `{Countable A, GoZero B} (m : gmap A B) (a : A)
    : B * bool :=
  match m !! a with
  | Some x => (x, true)
  | None => (go_zero, false)
  end.

(** What a read returns when the two indices hold [f] and [i]. *)
Definition answer_of (f : gmap K V) (i : gmap V K) (q : query K V)
    : answer K V :=
  match q with
  | QGetByKey k => AValueOk (lookup_ok f k)
  | QGetByValue v => AKeyOk (lookup_ok i v)
  | QGetByKeyWithFallback k d => AValue (default d (f !! k))
  | QGetByValueWithFallback v d => AKey (default d (i !! v))
  | QExistsByKey k => ABool (bool_decide (is_Some (f !! k)))
  | QExistsByValue v => ABool (bool_decide (is_Some (i !! v)))
  | QSize => AInt (Z.of_nat (size f))
  end.
End sequences.

Section predicates.
Context `{Countable K, Countable V, GoZero K, GoZero V}.

(** The two indices are exact inverses of one another. *)
Definition mutual_inverse (f : gmap K V) (i : gmap V K) : Prop :=
  ∀ k v, f !! k = Some v ↔ i !! v = Some k.

(** The bijection property as the specification words it:
    [inverse[forward[k]] == k] for every key of the forward map, and
    both maps have the same number of entries. *)
Definition bijective (h : heap K V) (b : loc) : Prop :=
  (∀ k v, fwd_of h b !! k = Some v → inv_of h b !! v = Some k)
  ∧ size (fwd_of h b) = size (inv_of h b).

(** [Insert(k2, v)] would collide: [v] is already the value of a
    different key. *)
Definition collision (f : gmap K V) (k2 : K) (v : V) : Prop :=
  map_Exists (λ k1 v1, k1 ≠ k2 ∧ v1 = v) f.

Definition collides (f : gmap K V) (m : mutation K V) : Prop :=
  match m with
  | MInsert k2 v => collision f k2 v
  | _ => False
  end.

(** No operation of [ms], run in turn from [h], is a colliding
    insert. *)
Fixpoint collision_free (b : loc) (ms : list (mutation K V)) (h : heap K V)
    : Prop :=
  match ms with
  | [] => True
  | m :: ms' =>
      ¬ collides (fwd_of h b) m ∧ collision_free b ms' (mutate b m h).2
  end.

(** The state invariant carried along a run: a live, mutable instance
    whose indices are exact inverses. *)
Definition consistent (h : heap K V) (b : loc) : Prop :=
  valid_BiMap h b ∧ frozen h b = false
  ∧ mutual_inverse (fwd_of h b) (inv_of h b).

Global Instance collides_dec f m : Decision (collides f m).
Proof. destruct m; simpl; unfold collision; apply _. Defined.

Global Instance collision_free_dec b ms h : Decision (collision_free b ms h).
Proof. revert h. induction ms as [|m ms IH]; intros h; simpl; apply _. Defined.
End predicates.

Section stated.
Context `{Countable K, Countable V, GoZero K, GoZero V}.

(** The overwrite property as the specification words it, for an
    instance in which [k] is mapped to [v1]: the inverse entry of [v1]
    goes, [(k, v2)] is established, and [ExistsByValue(v1)] is false
    afterwards unless some other key maps to [v1]. *)
Definition overwrite_as_stated (h : heap K V) (b : loc) (k : K) (v1 v2 : V)
    : Prop :=
  let h' := (Insert b k v2 h).2 in
  (Insert b k v2 h).1 = Val tt
  ∧ fwd_of h' b = <[k := v2]> (fwd_of h b)
  ∧ inv_of h' b = <[v2 := k]> (delete v1 (inv_of h b))
  ∧ ((¬ ∃ k', k' ≠ k ∧ fwd_of h' b !! k' = Some v1) →
     (ExistsByValue b v1 h').1 = Val false)
  ∧ (GetByKey b k h').1 = Val (v2, true).
End stated.

(** Everything a client of the package can do to the heap: call any
    exported function or method with any arguments, and make, write and
    delete from maps of its own or maps handed out by the accessors. *)
Inductive call (K V : Type) : Type :=
| CNewBiMap
| CNewBiMapFromMap (forwardMap : loc)
| CMutate (b : loc) (m : mutation K V)
| CAsk (b : loc) (q : query K V)
| CGet (b : loc) (k : K)
| CGetInverse (b : loc) (v : V)
| CExists (b : loc) (k : K)
| CExistsInverse (b : loc) (v : V)
| CDelete (b : loc) (k : K)
| CDeleteInverse (b : loc) (v : V)
| CMakeImmutable (b : loc)
| CFreeze (b : loc)
| CGetInverseMap (b : loc)
| CGetForwardMap (b : loc)
| CLock (b : loc)
| CUnlock (b : loc)
| CNewImmutableBiMapFromMap (forwardMap : loc)
| CImmutableAsk (b : loc) (q : query K V)
| CImmutableGetForwardMap (b : loc)
| CImmutableGetInverseMap (b : loc)
| CMakeKV
| CSetKV (m : loc) (k : K) (v : V)
| CDeleteKV (m : loc) (k : K)
| CMakeVK
| CSetVK (m : loc) (v : V) (k : K)
| CDeleteVK (m : loc) (v : V).
Global Arguments CNewBiMap {K V}.
Global Arguments CNewBiMapFromMap {K V} forwardMap.
Global Arguments CMutate {K V} b m.
Global Arguments CAsk {K V} b q.
Global Arguments CGet {K V} b k.
Global Arguments CGetInverse {K V} b v.
Global Arguments CExists {K V} b k.
Global Arguments CExistsInverse {K V} b v.
Global Arguments CDelete {K V} b k.
Global Arguments CDeleteInverse {K V} b v.
Global Arguments CMakeImmutable {K V} b.
Global Arguments CFreeze {K V} b.
Global Arguments CGetInverseMap {K V} b.
Global Arguments CGetForwardMap {K V} b.
Global Arguments CLock {K V} b.
Global Arguments CUnlock {K V} b.
Global Arguments CNewImmutableBiMapFromMap {K V} forwardMap.
Global Arguments CImmutableAsk {K V} b q.
Global Arguments CImmutableGetForwardMap {K V} b.
Global Arguments CImmutableGetInverseMap {K V} b.
Global Arguments CMakeKV {K V}.
Global Arguments CSetKV {K V} m k v.
Global Arguments CDeleteKV {K V} m k.
Global Arguments CMakeVK {K V}.
Global Arguments CSetVK {K V} m v k.
Global Arguments CDeleteVK {K V} m v.

Section client.
Context `{Countable K, Countable V, GoZero K, GoZero V}.
Variable kv_order : gmap K V → list (K * V).
Variable vk_order : gmap V K → list (V * K).

(** The heap after a call, whether it returned or panicked. *)
Definition exec (c : call K V) (h : heap K V) : heap K V :=
  match c with
  | CNewBiMap => (NewBiMap h).2
  | CNewBiMapFromMap m => (NewBiMapFromMap kv_order m h).2
  | CMutate b m => (mutate b m h).2
  | CAsk b q => (ask b q h).2
  | CGet b k => (Get b k h).2
  | CGetInverse b v => (GetInverse b v h).2
  | CExists b k => (Exists b k h).2
  | CExistsInverse b v => (ExistsInverse b v h).2
  | CDelete b k => (Delete b k h).2
  | CDeleteInverse b v => (DeleteInverse b v h).2
  | CMakeImmutable b => (MakeImmutable b h).2
  | CFreeze b => (Freeze kv_order vk_order b h).2
  | CGetInverseMap b => (GetInverseMap b h).2
  | CGetForwardMap b => (GetForwardMap b h).2
  | CLock b => (Lock b h).2
  | CUnlock b => (Unlock b h).2
  | CNewImmutableBiMapFromMap m =>
      (Immutable.NewImmutableBiMapFromMap kv_order m h).2
  | CImmutableAsk b q => (iask b q h).2
  | CImmutableGetForwardMap b => (Immutable.GetForwardMap kv_order b h).2
  | CImmutableGetInverseMap b => (Immutable.GetInverseMap vk_order b h).2
  | CMakeKV => (kv_make h).2
  | CSetKV m k v => (kv_set m k v h).2
  | CDeleteKV m k => (kv_delete m k h).2
  | CMakeVK => (vk_make h).2
  | CSetVK m v k => (vk_set m v k h).2
  | CDeleteVK m v => (vk_delete m v h).2
  end.

Definition exec_all (cs : list (call K V)) (h : heap K V) : heap K V :=
  foldl (λ h c, exec c h) h cs.

(** Every instance frozen in [h] is still frozen in [h']. *)
Definition freeze_kept (h h' : heap K V) : Prop :=
  ∀ b, frozen h b = true → frozen h' b = true.

(** A computation that never unfreezes anything. *)
Definition keeps_frozen {A} (m : go K V A) : Prop :=
  ∀ h, freeze_kept h (m h).2.
End client.

(** What can happen to the source of a snapshot afterwards: the three
    mutators, the in-place freeze, and writes through the live maps that
    [GetForwardMap] and [GetInverseMap] of [*BiMap] hand out. *)
Inductive source_step (K V : Type) : Type :=
| SMutate (m : mutation K V)
| SMakeImmutable
| SForwardSet (k : K) (v : V)
| SForwardDelete (k : K)
| SInverseSet (v : V) (k : K)
| SInverseDelete (v : V).
Global Arguments SMutate {K V} m.
Global Arguments SMakeImmutable {K V}.
Global Arguments SForwardSet {K V} k v.
Global Arguments SForwardDelete {K V} k.
Global Arguments SInverseSet {K V} v k.
Global Arguments SInverseDelete {K V} v.

(** A statement on a Go map the client holds: [m[a] = x] or
    [delete(m, a)]. *)
Inductive map_write (A B : Type) : Type :=
| WSet (a : A) (x : B)
| WDelete (a : A).
Global Arguments WSet {A B} a x.
Global Arguments WDelete {A B} a.

Section steps.
Context `{Countable K, Countable V, GoZero K, GoZero V}.

Definition source_do (b : loc) (s : source_step K V) : go K V unit :=
  match s with
  | SMutate m => mutate b m
  | SMakeImmutable => MakeImmutable b
  | SForwardSet k v => fm ← GetForwardMap b; kv_set fm k v
  | SForwardDelete k => fm ← GetForwardMap b; kv_delete fm k
  | SInverseSet v k => im ← GetInverseMap b; vk_set im v k
  | SInverseDelete v => im ← GetInverseMap b; vk_delete im v
  end.

Definition source_run (b : loc) (ss : list (source_step K V)) (h : heap K V)
    : heap K V :=
  foldl (λ h s, (source_do b s h).2) h ss.

Definition kv_write (m : loc) (w : map_write K V) : go K V unit :=
  match w with
  | WSet k v => kv_set m k v
  | WDelete k => kv_delete m k
  end.
Definition vk_write (m : loc) (w : map_write V K) : go K V unit :=
  match w with
  | WSet v k => vk_set m v k
  | WDelete v => vk_delete m v
  end.

Definition kv_writes (m : loc) (ws : list (map_write K V)) (h : heap K V)
    : heap K V :=
  foldl (λ h w, (kv_write m w h).2) h ws.
Definition vk_writes (m : loc) (ws : list (map_write V K)) (h : heap K V)
    : heap K V :=
  foldl (λ h w, (vk_write m w h).2) h ws.

(** [h'] differs from [h] at most in the flag of the struct at [b] and
    in the contents of the two maps that struct points to. *)
Definition only_touches (b : loc) (h h' : heap K V) : Prop :=
  ∃ B B', bimaps h !! b = Some B ∧ bimaps h' !! b = Some B'
          ∧ BiMap_forward B' = BiMap_forward B
          ∧ BiMap_inverse B' = BiMap_inverse B
          ∧ (∀ l, l ≠ BiMap_forward B → kv_maps h' !! l = kv_maps h !! l)
          ∧ (∀ l, l ≠ BiMap_inverse B → vk_maps h' !! l = vk_maps h !! l)
          ∧ is_Some (kv_maps h' !! BiMap_forward B)
          ∧ is_Some (vk_maps h' !! BiMap_inverse B)
          ∧ ibimaps h' = ibimaps h.
End steps.

(** ** A concrete instance: [BiMap[string, int]] *)

Definition empty_heap : heap string Z := mkHeap ∅ ∅ ∅ ∅.

(** The address [NewBiMap] returns on the empty heap. *)
Definition b1 : loc := 1%positive.

(** The empty instance, then with [("a", 1)], then with [("b", 2)] too. *)
Definition heap_new : heap string Z := (NewBiMap empty_heap).2.
Definition heap_a : heap string Z := (Insert b1 "a" 1 heap_new).2.
Definition heap_ab : heap string Z := (Insert b1 "b" 2 heap_a).2.

(** The scenario of the README. *)
Definition fruit_ops : list (mutation string Z) :=
  [MInsert "apples" 1; MInsert "bananas" 2; MDeleteByKey "apples";
   MInsert "bananas" 3; MDeleteByValue 3; MDeleteByValue 7].

(** [heap_ab] after [Freeze]; the snapshot is at address [1]. *)
Definition heap_frozen : heap string Z :=
  (Freeze map_to_list map_to_list b1 heap_ab).2.
Definition s1 : loc := 1%positive.

(** [NewImmutableBiMapFromMap(map[string]int{"a": 1})] on the empty heap:
    the literal is the map at address [1], the result the struct at
    address [1]. *)
Definition heap_ib : heap string Z :=
  ((src ← kv_make;
    kv_set src "a" 1;;
    Immutable.NewImmutableBiMapFromMap map_to_list src) empty_heap).2.
Definition ib1 : loc := 1%positive.

(** ** Further notions *)

Section further.
Context `{Countable K, Countable V, GoZero K, GoZero V}.

(** The structs at [b] and [b'] are different objects and so are their
    maps. *)
Definition apart (h : heap K V) (b b' : loc) : Prop :=
  ∃ B B', bimaps h !! b = Some B ∧ bimaps h !! b' = Some B'
          ∧ b ≠ b'
          ∧ BiMap_forward B ≠ BiMap_forward B'
          ∧ BiMap_inverse B ≠ BiMap_inverse B'.

(** No two keys of [m] have the same value. *)
Definition injective_map (m : gmap K V) : Prop :=
  ∀ k1 k2 v, m !! k1 = Some v → m !! k2 = Some v → k1 = k2.

(** The inverse index built by setting [inverse[v] = k] for each pair of
    [l] in turn. *)
Definition inverse_entries (l : list (K * V)) : gmap V K :=
  foldl (λ acc p, <[p.2 := p.1]> acc) ∅ l.
End further.

(** A [BiMap] that no constructor has filled in, as [new(BiMap[string,
    int])] gives it: the flag is false and both maps are nil. *)
Definition heap_zero : heap string Z :=
  mkHeap ∅ ∅ {[ b1 := mkBiMap false 1%positive 1%positive ]} ∅.

(** [heap_a] after the colliding [Insert("b", 1)]. *)
Definition heap_collide : heap string Z := (Insert b1 "b" 1 heap_a).2.

(** A second instance made on [heap_ab]; it is at address [2]. *)
Definition heap_two : heap string Z := (NewBiMap heap_ab).2.
Definition b2 : loc := 2%positive.

(** The literal [map[string]int{"x": 10, "y": 20}] at address [1]. *)
Definition heap_src : heap string Z :=
  ((src ← kv_make; kv_set src "x" 10;; kv_set src "y" 20) empty_heap).2.
Definition src1 : loc := 1%positive.

(** The literal [map[string]int{"a": 1, "b": 1}] at address [1]: two
    keys with one value. *)
Definition heap_dup : heap string Z :=
  ((src ← kv_make; kv_set src "a" 1;; kv_set src "b" 1) empty_heap).2.

(** * Proofs *)

(** ** Symbolic execution of the methods *)

Ltac go_unfold :=
  unfold Insert, DeleteByKey, DeleteByValue, MakeImmutable, NewBiMap,
    GetByKeyWithFallback, GetByValueWithFallback, GetByKey, GetByValue,
    ExistsByKey, ExistsByValue, Size, GetForwardMap, GetInverseMap,
    Lock, Unlock,
    Immutable.GetByKey, Immutable.GetByValue, Immutable.GetByKeyWithFallback,
    Immutable.GetByValueWithFallback, Immutable.ExistsByKey,
    Immutable.ExistsByValue, Immutable.Size,
    load_immutable, load_forward, load_inverse, load_BiMap, store_immutable,
    iload_forward, iload_inverse, load_ImmutableBiMap,
    new_BiMap, new_ImmutableBiMap, panic,
    kv_make, kv_get, kv_set, kv_delete, kv_len,
    vk_make, vk_get, vk_set, vk_delete, vk_len,
    st_get, st_set, st_delete, st_make, st_at,
    set_kv_maps, set_vk_maps, set_bimaps, set_ibimaps,
    mbind, go_bind, mret, go_ret in *.

Ltac go_step :=
  match goal with
  | Hl : ?m !! ?k = _ |- context [?m !! ?k] => rewrite Hl
  | Hl : BiMap_immutable ?B = _ |- context [BiMap_immutable ?B] => rewrite Hl
  | |- context [<[?l := _]> _ !! ?l] => rewrite lookup_insert_eq
  | |- context [<[?l := _]> (<[?l := _]> _)] => rewrite insert_insert_eq
  | |- context [∅ !! _] => rewrite lookup_empty
  | |- context [<[?l := _]> (delete ?l _)] => rewrite insert_delete_eq
  end.

Ltac go_run := go_unfold; simpl in *; repeat (go_step; simpl).

Section exec.
Context `{Countable K, Countable V, GoZero K, GoZero V}.
Implicit Types (h : heap K V) (b : loc) (k : K) (v : V).

Lemma Insert_exec h b B f i k v :
  bimaps h !! b = Some B → BiMap_immutable B = false →
  kv_maps h !! BiMap_forward B = Some f →
  vk_maps h !! BiMap_inverse B = Some i →
  Insert b k v h =
    (Val tt,
     mkHeap (<[BiMap_forward B := <[k := v]> f]> (kv_maps h))
            (<[BiMap_inverse B :=
                 <[v := k]> (match f !! k with
                             | Some old => delete old i
                             | None => i
                             end)]> (vk_maps h))
            (bimaps h) (ibimaps h)).
Proof.
  intros Hb Himm Hf Hi. destruct h as [kv vk bm ibm]. go_run.
  destruct (f !! k) as [old|] eqn:Hk; go_run; done.
Qed.

Lemma DeleteByKey_exec h b B f i k :
  bimaps h !! b = Some B → BiMap_immutable B = false →
  kv_maps h !! BiMap_forward B = Some f →
  vk_maps h !! BiMap_inverse B = Some i →
  DeleteByKey b k h =
    match f !! k with
    | Some val =>
        (Val tt,
         mkHeap (<[BiMap_forward B := delete k f]> (kv_maps h))
                (<[BiMap_inverse B := delete val i]> (vk_maps h))
                (bimaps h) (ibimaps h))
    | None => (Val tt, h)
    end.
Proof.
  intros Hb Himm Hf Hi. destruct h as [kv vk bm ibm]. go_run.
  destruct (f !! k) as [old|] eqn:Hk; go_run; done.
Qed.

Lemma DeleteByValue_exec h b B f i v :
  bimaps h !! b = Some B → BiMap_immutable B = false →
  kv_maps h !! BiMap_forward B = Some f →
  vk_maps h !! BiMap_inverse B = Some i →
  DeleteByValue b v h =
    match i !! v with
    | Some key =>
        (Val tt,
         mkHeap (<[BiMap_forward B := delete key f]> (kv_maps h))
                (<[BiMap_inverse B := delete v i]> (vk_maps h))
                (bimaps h) (ibimaps h))
    | None => (Val tt, h)
    end.
Proof.
  intros Hb Himm Hf Hi. destruct h as [kv vk bm ibm]. go_run.
  destruct (i !! v) as [key|] eqn:Hv; go_run; done.
Qed.

(** On a frozen instance the three mutators panic before touching
    anything. *)
Lemma mutate_frozen h b B m :
  bimaps h !! b = Some B → BiMap_immutable B = true →
  mutate b m h = (Panic immutable_msg, h).
Proof.
  intros Hb Himm. destruct m; simpl; go_run; done.
Qed.

Lemma MakeImmutable_exec h b B :
  bimaps h !! b = Some B →
  MakeImmutable b h =
    (Val tt,
     set_bimaps (<[b := mkBiMap true (BiMap_forward B) (BiMap_inverse B)]>
                   (bimaps h)) h).
Proof. intros Hb. go_run. done. Qed.

(** Every read of a [*BiMap] is determined by the two views and leaves
    the heap alone. *)
Lemma ask_exec h b q :
  is_Some (bimaps h !! b) →
  ask b q h = (Val (answer_of (fwd_of h b) (inv_of h b) q), h).
Proof.
  intros [B Hb]. unfold fwd_of, inv_of, answer_of, lookup_ok. rewrite Hb.
  destruct q; simpl; go_run;
    repeat match goal with
           | |- context [default ∅ ?o !! ?k] =>
               destruct (default ∅ o !! k) eqn:?; simpl
           end; done.
Qed.

Lemma iask_exec h b q :
  is_Some (ibimaps h !! b) →
  iask b q h = (Val (answer_of (ifwd_of h b) (iinv_of h b) q), h).
Proof.
  intros [B Hb]. unfold ifwd_of, iinv_of, answer_of, lookup_ok. rewrite Hb.
  destruct q; simpl; go_run;
    repeat match goal with
           | |- context [default ∅ ?o !! ?k] =>
               destruct (default ∅ o !! k) eqn:?; simpl
           end; done.
Qed.
End exec.

Section invariant.
Context `{Countable K, Countable V, GoZero K, GoZero V}.
Implicit Types (h : heap K V) (b : loc) (k : K) (v : V)
  (f : gmap K V) (i : gmap V K).

Lemma mutual_inverse_size f i : mutual_inverse f i → size f = size i.
Proof.
  revert i. induction f as [|k v f Hk IH] using map_ind; intros i Hfi.
  - rewrite map_size_empty. symmetry. apply map_size_empty_iff.
    apply map_empty. intros v. destruct (i !! v) as [k|] eqn:Hv; [|done].
    apply Hfi in Hv. by rewrite lookup_empty in Hv.
  - assert (i !! v = Some k) as Hv by (apply Hfi, lookup_insert_eq).
    rewrite map_size_insert_None by done.
    rewrite <- (insert_id i v k Hv), <- insert_delete_eq.
    rewrite map_size_insert_None by apply lookup_delete_eq.
    f_equal. apply IH. intros k' v'. split.
    + intros Hk'. assert (k' ≠ k) by congruence.
      assert (i !! v' = Some k') as Hv'.
      { apply Hfi. by rewrite lookup_insert_ne. }
      rewrite lookup_delete_ne; [done|]. congruence.
    + intros Hv'. destruct (decide (v' = v)) as [->|Hne].
      { by rewrite lookup_delete_eq in Hv'. }
      rewrite lookup_delete_ne in Hv' by done.
      apply Hfi in Hv'. destruct (decide (k' = k)) as [->|Hnk].
      { rewrite lookup_insert_eq in Hv'. congruence. }
      by rewrite lookup_insert_ne in Hv'.
Qed.

Lemma mutual_inverse_empty : mutual_inverse (∅ : gmap K V) (∅ : gmap V K).
Proof. intros k v. by rewrite !lookup_empty. Qed.

Lemma mutual_inverse_insert f i k v :
  mutual_inverse f i → ¬ collision f k v →
  mutual_inverse (<[k := v]> f)
    (<[v := k]> (match f !! k with Some old => delete old i | None => i end)).
Proof.
  intros Hfi Hnc.
  assert (∀ k1, f !! k1 = Some v → k1 = k) as Hone.
  { intros k1 Hk1. destruct (decide (k1 = k)) as [|Hne]; [done|].
    destruct Hnc. exists k1, v. auto. }
  intros k' v'. destruct (decide (k' = k)) as [->|Hk'].
  - rewrite lookup_insert_eq. destruct (decide (v' = v)) as [->|Hv'].
    { by rewrite lookup_insert_eq. }
    rewrite lookup_insert_ne by done. split; [congruence|].
    intros Hi. exfalso. destruct (f !! k) as [old|] eqn:Hk.
    + destruct (decide (v' = old)) as [->|Hne].
      { by rewrite lookup_delete_eq in Hi. }
      rewrite lookup_delete_ne in Hi by done. apply Hfi in Hi. congruence.
    + apply Hfi in Hi. congruence.
  - rewrite lookup_insert_ne by done. destruct (decide (v' = v)) as [->|Hv'].
    { rewrite lookup_insert_eq. split; [|congruence].
      intros Hf. apply Hone in Hf. congruence. }
    rewrite lookup_insert_ne by done. destruct (f !! k) as [old|] eqn:Hk.
    + destruct (decide (v' = old)) as [->|Hne].
      * rewrite lookup_delete_eq. split; [|done].
        intros Hf. apply Hfi in Hk. apply Hfi in Hf. congruence.
      * rewrite lookup_delete_ne by done. apply Hfi.
    + apply Hfi.
Qed.

Lemma mutual_inverse_delete f i k v :
  mutual_inverse f i → f !! k = Some v →
  mutual_inverse (delete k f) (delete v i).
Proof.
  intros Hfi Hk k' v'.
  destruct (decide (k' = k)) as [->|Hk'].
  - rewrite lookup_delete_eq. split; [done|].
    destruct (decide (v' = v)) as [->|Hv'].
    { by rewrite lookup_delete_eq. }
    rewrite lookup_delete_ne by done. intros Hi. apply Hfi in Hi. congruence.
  - rewrite lookup_delete_ne by done.
    destruct (decide (v' = v)) as [->|Hv'].
    + rewrite lookup_delete_eq. split; [|done].
      intros Hf. apply Hfi in Hf. apply Hfi in Hk. congruence.
    + rewrite lookup_delete_ne by done. apply Hfi.
Qed.
End invariant.

Section specs.
Context `{Countable K, Countable V, GoZero K, GoZero V}.
Implicit Types (h : heap K V) (b : loc) (k : K) (v : V)
  (f : gmap K V) (i : gmap V K).

Lemma valid_BiMap_open h b :
  valid_BiMap h b →
  ∃ B f i, bimaps h !! b = Some B
           ∧ kv_maps h !! BiMap_forward B = Some f
           ∧ vk_maps h !! BiMap_inverse B = Some i
           ∧ fwd_of h b = f ∧ inv_of h b = i
           ∧ frozen h b = BiMap_immutable B.
Proof.
  intros (B & Hb & [f Hf] & [i Hi]). exists B, f, i.
  unfold fwd_of, inv_of, frozen, st_at. rewrite Hb, Hf, Hi. done.
Qed.

(** Views of a heap in which the two maps of [b] have been replaced. *)
Lemma views_replace h b B f' i' :
  bimaps h !! b = Some B →
  let h' := mkHeap (<[BiMap_forward B := f']> (kv_maps h))
                   (<[BiMap_inverse B := i']> (vk_maps h))
                   (bimaps h) (ibimaps h) in
  valid_BiMap h' b ∧ frozen h' b = frozen h b
  ∧ fwd_of h' b = f' ∧ inv_of h' b = i'.
Proof.
  intros Hb h'. unfold valid_BiMap, frozen, fwd_of, inv_of, st_at, h'; simpl.
  rewrite Hb, !lookup_insert_eq. repeat split; [|done..].
  exists B. rewrite !lookup_insert_eq. eauto.
Qed.

Lemma Insert_spec h b k v :
  valid_BiMap h b → frozen h b = false →
  (Insert b k v h).1 = Val tt
  ∧ valid_BiMap (Insert b k v h).2 b
  ∧ frozen (Insert b k v h).2 b = false
  ∧ fwd_of (Insert b k v h).2 b = <[k := v]> (fwd_of h b)
  ∧ inv_of (Insert b k v h).2 b =
      <[v := k]> (match fwd_of h b !! k with
                  | Some old => delete old (inv_of h b)
                  | None => inv_of h b
                  end).
Proof.
  intros Hv Hfr.
  destruct (valid_BiMap_open _ _ Hv) as (B & f & i & Hb & Hf & Hi & -> & -> & HB).
  rewrite Hfr in HB. rewrite (Insert_exec h b B f i) by done. simpl.
  edestruct (views_replace h b B) as (? & -> & -> & ->); [done|].
  rewrite Hfr. eauto.
Qed.

Lemma DeleteByKey_spec h b k :
  valid_BiMap h b → frozen h b = false →
  (DeleteByKey b k h).1 = Val tt
  ∧ valid_BiMap (DeleteByKey b k h).2 b
  ∧ frozen (DeleteByKey b k h).2 b = false
  ∧ match fwd_of h b !! k with
    | Some val =>
        fwd_of (DeleteByKey b k h).2 b = delete k (fwd_of h b)
        ∧ inv_of (DeleteByKey b k h).2 b = delete val (inv_of h b)
    | None => (DeleteByKey b k h).2 = h
    end.
Proof.
  intros Hv Hfr.
  destruct (valid_BiMap_open _ _ Hv) as (B & f & i & Hb & Hf & Hi & Hfo & Hio & HB).
  rewrite Hfr in HB. rewrite (DeleteByKey_exec h b B f i) by done.
  rewrite Hfo, Hio. destruct (f !! k) as [val|]; simpl; [|done].
  edestruct (views_replace h b B) as (? & -> & -> & ->); [done|].
  rewrite Hfr. eauto.
Qed.

Lemma DeleteByValue_spec h b v :
  valid_BiMap h b → frozen h b = false →
  (DeleteByValue b v h).1 = Val tt
  ∧ valid_BiMap (DeleteByValue b v h).2 b
  ∧ frozen (DeleteByValue b v h).2 b = false
  ∧ match inv_of h b !! v with
    | Some key =>
        fwd_of (DeleteByValue b v h).2 b = delete key (fwd_of h b)
        ∧ inv_of (DeleteByValue b v h).2 b = delete v (inv_of h b)
    | None => (DeleteByValue b v h).2 = h
    end.
Proof.
  intros Hv Hfr.
  destruct (valid_BiMap_open _ _ Hv) as (B & f & i & Hb & Hf & Hi & Hfo & Hio & HB).
  rewrite Hfr in HB. rewrite (DeleteByValue_exec h b B f i) by done.
  rewrite Hfo, Hio. destruct (i !! v) as [key|]; simpl; [|done].
  edestruct (views_replace h b B) as (? & -> & -> & ->); [done|].
  rewrite Hfr. eauto.
Qed.
End specs.

Section bijection.
Context `{Countable K, Countable V, GoZero K, GoZero V}.
Implicit Types (h : heap K V) (b : loc) (k : K) (v : V).

Lemma NewBiMap_spec h :
  ∃ b, (NewBiMap h).1 = Val b
       ∧ bimaps h !! b = None
       ∧ valid_BiMap (NewBiMap h).2 b
       ∧ frozen (NewBiMap h).2 b = false
       ∧ fwd_of (NewBiMap h).2 b = ∅
       ∧ inv_of (NewBiMap h).2 b = ∅.
Proof.
  exists (fresh (dom (bimaps h))).
  unfold valid_BiMap, frozen, fwd_of, inv_of. go_run.
  repeat split; try done.
  - apply not_elem_of_dom, is_fresh.
  - eexists. split; [done|]. simpl. rewrite !lookup_insert_eq. eauto.
Qed.

Lemma consistent_bijective h b : consistent h b → bijective h b.
Proof.
  intros (_ & _ & Hfi). split; [apply Hfi | by apply mutual_inverse_size].
Qed.

Lemma mutate_consistent h b m :
  consistent h b → ¬ collides (fwd_of h b) m →
  (mutate b m h).1 = Val tt ∧ consistent (mutate b m h).2 b.
Proof.
  intros (Hv & Hfr & Hfi) Hnc. unfold consistent. destruct m as [k v|k|v]; simpl.
  - destruct (Insert_spec h b k v Hv Hfr) as (-> & ? & ? & -> & ->).
    do 3 (split; [done|]). by apply mutual_inverse_insert.
  - destruct (DeleteByKey_spec h b k Hv Hfr) as (-> & ? & ? & Hd).
    do 3 (split; [done|]).
    destruct (fwd_of h b !! k) as [val|] eqn:Hk.
    + destruct Hd as [-> ->]. by apply mutual_inverse_delete.
    + by rewrite Hd.
  - destruct (DeleteByValue_spec h b v Hv Hfr) as (-> & ? & ? & Hd).
    do 3 (split; [done|]).
    destruct (inv_of h b !! v) as [key|] eqn:Hk.
    + destruct Hd as [-> ->]. apply mutual_inverse_delete; [done|].
      by apply Hfi.
    + by rewrite Hd.
Qed.

Lemma trace_consistent h b ms :
  consistent h b → collision_free b ms h →
  Forall (λ r, r.1 = Val tt ∧ bijective r.2 b) (trace b ms h).
Proof.
  revert h. induction ms as [|m ms IH]; intros h Hc Hcf; simpl; [constructor|].
  destruct Hcf as [Hnc Hcf].
  destruct (mutate_consistent h b m Hc Hnc) as [Hr Hc'].
  constructor; [split; [done | by apply consistent_bijective]|].
  by apply IH.
Qed.

(** C1.  Start from the empty instance returned by [NewBiMap] and run
    any sequence of [Insert], [DeleteByKey] and [DeleteByValue] in
    which no insert puts a value that is already the value of another
    key.  Then every operation returns normally and, after each one,
    [inverse[forward[k]] == k] for every key [k] of the forward map and
    the two maps have the same number of entries. *)
Theorem bijection_invariant h0 b h ms :
  NewBiMap h0 = (Val b, h) →
  collision_free b ms h →
  Forall (λ r, r.1 = Val tt ∧ bijective r.2 b) (trace b ms h).
Proof.
  intros Hnew Hcf. apply trace_consistent; [|done].
  destruct (NewBiMap_spec h0) as (b' & Hb' & _ & Hv & Hfr & Hf & Hi).
  rewrite Hnew in *. simpl in *. injection Hb' as <-.
  do 2 (split; [done|]). rewrite Hf, Hi. apply mutual_inverse_empty.
Qed.
End bijection.

Section idempotence.
Context `{Countable K, Countable V, GoZero K, GoZero V}.
Implicit Types (h : heap K V) (b : loc) (k : K) (v : V).

(** C10.  [Insert(k, v)] performed on the heap left by [Insert(k, v)]
    has the same outcome and leaves the same heap: a second identical
    insert changes nothing.  This holds on every heap and receiver, so in
    particular on every live, non-frozen instance. *)
Theorem Insert_idempotent h b k v :
  Insert b k v (Insert b k v h).2 = Insert b k v h.
Proof.
  destruct h as [kv vk bm ibm].
  destruct (bm !! b) as [[imm fwd inv]|] eqn:Hb; [|by go_run].
  destruct imm; [by go_run|].
  destruct (kv !! fwd) as [f|] eqn:Hf; [|by go_run].
  destruct (vk !! inv) as [i|] eqn:Hi.
  - go_run. destruct (f !! k) as [old|] eqn:Hk; go_run; done.
  - go_run. destruct (f !! k) as [old|] eqn:Hk; go_run; done.
Qed.
End idempotence.

Section reads.
Context `{Countable K, Countable V, GoZero K, GoZero V}.
Implicit Types (h : heap K V) (b : loc) (k : K) (v : V).

Ltac read_exec :=
  intros [B Hb];
  unfold fwd_of, inv_of, ifwd_of, iinv_of, lookup_ok; rewrite Hb;
  go_run;
  repeat match goal with
         | |- context [default ∅ ?o !! ?k] =>
             destruct (default ∅ o !! k) eqn:?; simpl
         end; done.

Lemma GetByKey_exec h b k :
  is_Some (bimaps h !! b) →
  GetByKey b k h = (Val (lookup_ok (fwd_of h b) k), h).
Proof. read_exec. Qed.

Lemma GetByValue_exec h b v :
  is_Some (bimaps h !! b) →
  GetByValue b v h = (Val (lookup_ok (inv_of h b) v), h).
Proof. read_exec. Qed.

Lemma ExistsByKey_exec h b k :
  is_Some (bimaps h !! b) →
  ExistsByKey b k h = (Val (bool_decide (is_Some (fwd_of h b !! k))), h).
Proof. read_exec. Qed.

Lemma ExistsByValue_exec h b v :
  is_Some (bimaps h !! b) →
  ExistsByValue b v h = (Val (bool_decide (is_Some (inv_of h b !! v))), h).
Proof. read_exec. Qed.

Lemma Size_exec h b :
  is_Some (bimaps h !! b) →
  Size b h = (Val (Z.of_nat (size (fwd_of h b))), h).
Proof. read_exec. Qed.

Lemma GetByKeyWithFallback_exec h b k (d : V) :
  is_Some (bimaps h !! b) →
  GetByKeyWithFallback b k d h = (Val (default d (fwd_of h b !! k)), h).
Proof. read_exec. Qed.

Lemma GetByValueWithFallback_exec h b v (d : K) :
  is_Some (bimaps h !! b) →
  GetByValueWithFallback b v d h = (Val (default d (inv_of h b !! v)), h).
Proof. read_exec. Qed.

Lemma Immutable_GetByKeyWithFallback_exec h b k (d : V) :
  is_Some (ibimaps h !! b) →
  Immutable.GetByKeyWithFallback b k d h
  = (Val (default d (ifwd_of h b !! k)), h).
Proof. read_exec. Qed.

Lemma Immutable_GetByValueWithFallback_exec h b v (d : K) :
  is_Some (ibimaps h !! b) →
  Immutable.GetByValueWithFallback b v d h
  = (Val (default d (iinv_of h b !! v)), h).
Proof. read_exec. Qed.

Lemma valid_BiMap_is_Some h b : valid_BiMap h b → is_Some (bimaps h !! b).
Proof. intros (B & -> & _). eauto. Qed.

(** C2, as amended.  On a live, non-frozen instance that maps [k] to
    [v1], [Insert(k, v2)] returns normally; the inverse entry of [v1] is
    removed, then [forward[k] = v2] and [inverse[v2] = k] are set.
    Afterwards [GetByKey(k)] returns [(v2, true)], and
    [ExistsByValue(v1)] is false exactly when [v2] differs from [v1],
    whatever other keys map to. *)
Theorem Insert_overwrite h b k v1 v2 :
  valid_BiMap h b → frozen h b = false → fwd_of h b !! k = Some v1 →
  (Insert b k v2 h).1 = Val tt
  ∧ fwd_of (Insert b k v2 h).2 b = <[k := v2]> (fwd_of h b)
  ∧ inv_of (Insert b k v2 h).2 b = <[v2 := k]> (delete v1 (inv_of h b))
  ∧ (ExistsByValue b v1 (Insert b k v2 h).2).1 = Val (bool_decide (v1 = v2))
  ∧ (GetByKey b k (Insert b k v2 h).2).1 = Val (v2, true).
Proof.
  intros Hv Hfr Hk.
  destruct (Insert_spec h b k v2 Hv Hfr) as (Hr & Hv' & _ & Hf & Hi).
  rewrite Hk in Hi. apply valid_BiMap_is_Some in Hv'.
  rewrite ExistsByValue_exec, GetByKey_exec by done. simpl.
  rewrite Hf, Hi. unfold lookup_ok. rewrite lookup_insert_eq.
  do 3 (split; [done|]). split; [|done].
  f_equal. destruct (decide (v1 = v2)) as [->|Hne].
  - rewrite lookup_insert_eq, !bool_decide_eq_true_2 by eauto. done.
  - rewrite lookup_insert_ne, lookup_delete_eq by done.
    rewrite (bool_decide_eq_false_2 (v1 = v2)) by done.
    apply bool_decide_eq_false_2. by intros [? ?].
Qed.

(** C3.  On a live, non-frozen instance with [forward[k1] == v] and
    [k2 ≠ k1] not mapped, [Insert(k2, v)] returns normally, keeps
    [forward[k1] == v], sets [forward[k2] = v] and overwrites the one
    inverse slot of [v] so that [inverse[v] == k2]: the forward map has
    two entries for [v] and the bijection property is broken. *)
Theorem Insert_value_collision h b k1 k2 v :
  valid_BiMap h b → frozen h b = false →
  fwd_of h b !! k1 = Some v → k2 ≠ k1 → fwd_of h b !! k2 = None →
  (Insert b k2 v h).1 = Val tt
  ∧ fwd_of (Insert b k2 v h).2 b = <[k2 := v]> (fwd_of h b)
  ∧ inv_of (Insert b k2 v h).2 b = <[v := k2]> (inv_of h b)
  ∧ fwd_of (Insert b k2 v h).2 b !! k1 = Some v
  ∧ fwd_of (Insert b k2 v h).2 b !! k2 = Some v
  ∧ inv_of (Insert b k2 v h).2 b !! v = Some k2
  ∧ ¬ bijective (Insert b k2 v h).2 b.
Proof.
  intros Hv Hfr Hk1 Hne Hk2.
  destruct (Insert_spec h b k2 v Hv Hfr) as (Hr & _ & _ & Hf & Hi).
  rewrite Hk2 in Hi. unfold bijective. rewrite Hf, Hi.
  rewrite lookup_insert_ne, !lookup_insert_eq by done.
  do 6 (split; [done|]). intros [Hbij _].
  specialize (Hbij k1 v). rewrite lookup_insert_ne, lookup_insert_eq in Hbij by done.
  specialize (Hbij Hk1). congruence.
Qed.

(** C6.  On a live, non-frozen instance [DeleteByKey(k)] returns
    normally; when [k] is present with value [val] the entry of [k]
    leaves the forward map and the entry of [val] leaves the inverse
    map; when [k] is absent the heap is unchanged.  [DeleteByValue(v)]
    is the mirror image. *)
Theorem Delete_present_absent h b k v :
  valid_BiMap h b → frozen h b = false →
  ((DeleteByKey b k h).1 = Val tt
   ∧ match fwd_of h b !! k with
     | Some val =>
         fwd_of (DeleteByKey b k h).2 b = delete k (fwd_of h b)
         ∧ inv_of (DeleteByKey b k h).2 b = delete val (inv_of h b)
     | None => (DeleteByKey b k h).2 = h
     end)
  ∧ ((DeleteByValue b v h).1 = Val tt
     ∧ match inv_of h b !! v with
       | Some key =>
           fwd_of (DeleteByValue b v h).2 b = delete key (fwd_of h b)
           ∧ inv_of (DeleteByValue b v h).2 b = delete v (inv_of h b)
       | None => (DeleteByValue b v h).2 = h
       end).
Proof.
  intros Hv Hfr.
  destruct (DeleteByKey_spec h b k Hv Hfr) as (? & _ & _ & ?).
  destruct (DeleteByValue_spec h b v Hv Hfr) as (? & _ & _ & ?).
  done.
Qed.

(** C7.  On either variant the fallback lookups return normally, with
    the stored value (key) when the key (value) is present and the
    fallback otherwise, and leave the heap as it is.  Each variant
    stands on its own: the two methods of [*BiMap] need only a live
    [*BiMap], the two of [*ImmutableBiMap] only a live
    [*ImmutableBiMap]. *)
Theorem fallback_correct h b ib k v (dv : V) (dk : K) :
  (is_Some (bimaps h !! b) →
   GetByKeyWithFallback b k dv h
     = (Val (match fwd_of h b !! k with Some x => x | None => dv end), h)
   ∧ GetByValueWithFallback b v dk h
     = (Val (match inv_of h b !! v with Some x => x | None => dk end), h))
  ∧ (is_Some (ibimaps h !! ib) →
     Immutable.GetByKeyWithFallback ib k dv h
       = (Val (match ifwd_of h ib !! k with Some x => x | None => dv end), h)
     ∧ Immutable.GetByValueWithFallback ib v dk h
       = (Val (match iinv_of h ib !! v with Some x => x | None => dk end), h)).
Proof.
  split.
  - intros Hb.
    rewrite GetByKeyWithFallback_exec, GetByValueWithFallback_exec by done.
    done.
  - intros Hib.
    rewrite Immutable_GetByKeyWithFallback_exec,
      Immutable_GetByValueWithFallback_exec by done.
    done.
Qed.

(** C9.  Each deprecated method is its replacement: on every heap,
    receiver and argument the two calls give the same outcome (value or
    panic, so also the panic on a frozen instance) and the same heap
    afterwards. *)
Theorem deprecated_same h b k v :
  Get b k h = GetByKey b k h
  ∧ GetInverse b v h = GetByValue b v h
  ∧ Exists b k h = ExistsByKey b k h
  ∧ ExistsInverse b v h = ExistsByValue b v h
  ∧ Delete b k h = DeleteByKey b k h
  ∧ DeleteInverse b v h = DeleteByValue b v h.
Proof. repeat split. Qed.
End reads.

Section finality.
Context `{Countable K, Countable V, GoZero K, GoZero V}.
Variable kv_order : gmap K V → list (K * V).
Variable vk_order : gmap V K → list (V * K).
Implicit Types (h : heap K V) (b : loc) (k : K) (v : V).

Lemma freeze_kept_same h h' : bimaps h' = bimaps h → freeze_kept h h'.
Proof. intros Heq b. unfold frozen. by rewrite Heq. Qed.

Lemma keeps_frozen_ret {A} (a : A) : keeps_frozen (mret a : go K V A).
Proof. intros h b. done. Qed.

Lemma keeps_frozen_panic {A} msg : keeps_frozen (panic msg : go K V A).
Proof. intros h b. done. Qed.

Lemma keeps_frozen_bind {A B} (m : go K V A) (f : A → go K V B) :
  keeps_frozen m → (∀ a, keeps_frozen (f a)) → keeps_frozen (m ≫= f).
Proof.
  intros Hm Hf h b Hb. unfold mbind, go_bind.
  specialize (Hm h b Hb). destruct (m h) as [[a|msg] h']; simpl in *; [|done].
  by apply Hf.
Qed.

Lemma keeps_frozen_for_each {A} (l : list A) (body : A → go K V unit) :
  (∀ a, keeps_frozen (body a)) → keeps_frozen (for_each l body).
Proof.
  intros Hbody. induction l as [|a l IH]; simpl.
  - apply keeps_frozen_ret.
  - apply keeps_frozen_bind; [apply Hbody | intros _; apply IH].
Qed.

Lemma keeps_frozen_same {A} (m : go K V A) :
  (∀ h, bimaps (m h).2 = bimaps h) → keeps_frozen m.
Proof. intros Hm h. apply freeze_kept_same, Hm. Qed.

Lemma keeps_frozen_load {A} (fld : BiMap → A) b :
  keeps_frozen (load_BiMap fld b : go K V A).
Proof.
  apply keeps_frozen_same. intros h. unfold load_BiMap.
  by destruct (bimaps h !! b).
Qed.

Lemma keeps_frozen_iload {A} (fld : ImmutableBiMap → A) b :
  keeps_frozen (load_ImmutableBiMap fld b : go K V A).
Proof.
  apply keeps_frozen_same. intros h. unfold load_ImmutableBiMap.
  by destruct (ibimaps h !! b).
Qed.

Lemma keeps_frozen_kv_make : keeps_frozen (kv_make : go K V loc).
Proof. by apply keeps_frozen_same. Qed.
Lemma keeps_frozen_vk_make : keeps_frozen (vk_make : go K V loc).
Proof. by apply keeps_frozen_same. Qed.
Lemma keeps_frozen_kv_get l k : keeps_frozen (kv_get l k : go K V _).
Proof. by apply keeps_frozen_same. Qed.
Lemma keeps_frozen_vk_get l v : keeps_frozen (vk_get l v : go K V _).
Proof. by apply keeps_frozen_same. Qed.
Lemma keeps_frozen_kv_len l : keeps_frozen (kv_len l : go K V _).
Proof. by apply keeps_frozen_same. Qed.
Lemma keeps_frozen_vk_len l : keeps_frozen (vk_len l : go K V _).
Proof. by apply keeps_frozen_same. Qed.
Lemma keeps_frozen_kv_delete l k : keeps_frozen (kv_delete l k : go K V _).
Proof. by apply keeps_frozen_same. Qed.
Lemma keeps_frozen_vk_delete l v : keeps_frozen (vk_delete l v : go K V _).
Proof. by apply keeps_frozen_same. Qed.
Lemma keeps_frozen_kv_set l k v : keeps_frozen (kv_set l k v : go K V _).
Proof.
  apply keeps_frozen_same. intros h. unfold kv_set.
  by destruct (st_set (kv_maps h) l k v).
Qed.
Lemma keeps_frozen_vk_set l v k : keeps_frozen (vk_set l v k : go K V _).
Proof.
  apply keeps_frozen_same. intros h. unfold vk_set.
  by destruct (st_set (vk_maps h) l v k).
Qed.

Lemma keeps_frozen_new_ImmutableBiMap B :
  keeps_frozen (new_ImmutableBiMap B : go K V loc).
Proof. by apply keeps_frozen_same. Qed.

(** A new struct never lands on a live address. *)
Lemma keeps_frozen_new_BiMap B : keeps_frozen (new_BiMap B : go K V loc).
Proof.
  intros h b. unfold frozen, new_BiMap; simpl.
  destruct (bimaps h !! b) as [B'|] eqn:Hb; [|done].
  rewrite lookup_insert_ne; [by rewrite Hb|].
  intros <-. apply (is_fresh (dom (bimaps h))), elem_of_dom. eauto.
Qed.

(** The only write to the flag sets it. *)
Lemma keeps_frozen_store_immutable b :
  keeps_frozen (store_immutable b true : go K V unit).
Proof.
  intros h b'. unfold frozen, store_immutable.
  destruct (bimaps h !! b) as [B|] eqn:Hb; simpl; [|done].
  destruct (decide (b = b')) as [<-|Hne].
  - by rewrite lookup_insert_eq.
  - by rewrite lookup_insert_ne.
Qed.
End finality.

Create HintDb frozen.

Global Hint Resolve keeps_frozen_ret keeps_frozen_panic keeps_frozen_load
  keeps_frozen_iload keeps_frozen_kv_make keeps_frozen_vk_make
  keeps_frozen_kv_get keeps_frozen_vk_get keeps_frozen_kv_len
  keeps_frozen_vk_len keeps_frozen_kv_delete keeps_frozen_vk_delete
  keeps_frozen_kv_set keeps_frozen_vk_set keeps_frozen_new_ImmutableBiMap
  keeps_frozen_new_BiMap keeps_frozen_store_immutable : frozen.

Ltac keeps :=
  repeat first
    [ progress eauto with frozen
    | apply keeps_frozen_bind; [|intros ?]
    | apply keeps_frozen_for_each; intros ?
    | match goal with
      | |- keeps_frozen (if ?c then _ else _) => destruct c
      | |- keeps_frozen (let '(_, _) := ?x in _) => destruct x
      | |- keeps_frozen (match ?x with _ => _ end) => destruct x
      end ].

Section finality_calls.
Context `{Countable K, Countable V, GoZero K, GoZero V}.
Variable kv_order : gmap K V → list (K * V).
Variable vk_order : gmap V K → list (V * K).
Implicit Types (h : heap K V) (b : loc) (k : K) (v : V)
  (m : mutation K V) (q : query K V) (c : call K V) (cs : list (call K V)).

Lemma keeps_frozen_mutate b m : keeps_frozen (mutate b m).
Proof.
  destruct m; simpl; unfold Insert, DeleteByKey, DeleteByValue,
    load_immutable, load_forward, load_inverse; keeps.
Qed.

Lemma keeps_frozen_ask b q : keeps_frozen (ask b q).
Proof.
  destruct q; simpl; unfold GetByKeyWithFallback, GetByValueWithFallback,
    GetByKey, GetByValue, ExistsByKey, ExistsByValue, Size,
    load_forward, load_inverse; keeps.
Qed.

Lemma keeps_frozen_iask b q : keeps_frozen (iask b q).
Proof.
  destruct q; simpl; unfold Immutable.GetByKeyWithFallback,
    Immutable.GetByValueWithFallback, Immutable.GetByKey,
    Immutable.GetByValue, Immutable.ExistsByKey, Immutable.ExistsByValue,
    Immutable.Size, iload_forward, iload_inverse; keeps.
Qed.

Lemma keeps_frozen_kv_range l (body : K → V → go K V unit) :
  (∀ k v, keeps_frozen (body k v)) → keeps_frozen (kv_range kv_order l body).
Proof. intros Hbody h. apply keeps_frozen_for_each. intros [k v]. apply Hbody. Qed.

Lemma keeps_frozen_vk_range l (body : V → K → go K V unit) :
  (∀ v k, keeps_frozen (body v k)) → keeps_frozen (vk_range vk_order l body).
Proof. intros Hbody h. apply keeps_frozen_for_each. intros [v k]. apply Hbody. Qed.

Lemma exec_keeps c h : freeze_kept h (exec kv_order vk_order c h).
Proof.
  destruct c; cbn [exec].
  all: match goal with |- freeze_kept ?h (?m ?h).2 =>
         revert h; change (keeps_frozen m) end.
  all: try apply keeps_frozen_mutate.
  all: try apply keeps_frozen_ask.
  all: try apply keeps_frozen_iask.
  all: try apply (keeps_frozen_mutate _ (MDeleteByKey _)).
  all: try apply (keeps_frozen_mutate _ (MDeleteByValue _)).
  all: unfold NewBiMapFromMap, NewBiMap, Get, GetInverse, Exists,
         ExistsInverse, GetByKey, GetByValue, ExistsByKey, ExistsByValue,
         MakeImmutable, Freeze, GetInverseMap, GetForwardMap, Lock, Unlock,
         Immutable.NewImmutableBiMapFromMap, Immutable.GetForwardMap,
         Immutable.GetInverseMap,
         load_immutable, load_forward, load_inverse,
         iload_forward, iload_inverse.
  all: repeat first
         [ apply keeps_frozen_kv_range; intros ? ?
         | apply keeps_frozen_vk_range; intros ? ?
         | apply (keeps_frozen_mutate _ (MInsert _ _))
         | progress keeps ].
Qed.

Lemma exec_all_keeps cs h : freeze_kept h (exec_all kv_order vk_order cs h).
Proof.
  revert h. induction cs as [|c cs IH]; intros h b Hb; simpl; [done|].
  apply IH. by apply exec_keeps.
Qed.
End finality_calls.

Section make_immutable.
Context `{Countable K, Countable V, GoZero K, GoZero V}.
Variable kv_order : gmap K V → list (K * V).
Variable vk_order : gmap V K → list (V * K).
Implicit Types (h : heap K V) (b : loc) (k : K) (v : V)
  (m : mutation K V) (q : query K V) (c : call K V) (cs : list (call K V))
  (ms : list (mutation K V)).

Lemma frozen_mutate_panics h b m :
  frozen h b = true → mutate b m h = (Panic immutable_msg, h).
Proof.
  unfold frozen. destruct (bimaps h !! b) as [B|] eqn:Hb; [|done].
  intros HB. by apply (mutate_frozen h b B).
Qed.

Lemma frozen_trace_panics h b ms :
  frozen h b = true →
  Forall (λ r, r = (Panic immutable_msg, h)) (trace b ms h).
Proof.
  intros Hfr. induction ms as [|m ms IH]; simpl; [constructor|].
  rewrite (frozen_mutate_panics h b m Hfr). by constructor.
Qed.

Lemma MakeImmutable_views h b :
  is_Some (bimaps h !! b) →
  (MakeImmutable b h).1 = Val tt
  ∧ frozen (MakeImmutable b h).2 b = true
  ∧ fwd_of (MakeImmutable b h).2 b = fwd_of h b
  ∧ inv_of (MakeImmutable b h).2 b = inv_of h b
  ∧ kv_maps (MakeImmutable b h).2 = kv_maps h
  ∧ vk_maps (MakeImmutable b h).2 = vk_maps h.
Proof.
  intros [B Hb]. rewrite (MakeImmutable_exec h b B Hb).
  unfold frozen, fwd_of, inv_of; simpl. by rewrite lookup_insert_eq, Hb.
Qed.

Lemma MakeImmutable_again h b :
  frozen h b = true → MakeImmutable b h = (Val tt, h).
Proof.
  unfold frozen. destruct (bimaps h !! b) as [[imm f i]|] eqn:Hb; [|done].
  simpl. intros ->. rewrite (MakeImmutable_exec h b _ Hb). simpl.
  rewrite insert_id by done. by destruct h.
Qed.

(** C4.  Let [h1] be the heap after [MakeImmutable] on a live instance
    [b].  The call returns normally.  From [h1], every [Insert],
    [DeleteByKey] and [DeleteByValue] on [b] panics with "Cannot modify
    immutable map" and leaves the heap exactly [h1]; every read returns
    what it returned before the freeze; a second [MakeImmutable] returns
    normally and changes nothing; and after any sequence of calls of
    the package and map writes of the client, the three mutators still
    panic on [b] without touching the heap. *)
Theorem MakeImmutable_final h b :
  is_Some (bimaps h !! b) →
  (MakeImmutable b h).1 = Val tt
  ∧ (∀ ms, Forall (λ r, r = (Panic immutable_msg, (MakeImmutable b h).2))
             (trace b ms (MakeImmutable b h).2))
  ∧ (∀ q, ask b q (MakeImmutable b h).2 = ((ask b q h).1, (MakeImmutable b h).2))
  ∧ MakeImmutable b (MakeImmutable b h).2 = (Val tt, (MakeImmutable b h).2)
  ∧ (∀ cs m,
       mutate b m (exec_all kv_order vk_order cs (MakeImmutable b h).2)
       = (Panic immutable_msg,
          exec_all kv_order vk_order cs (MakeImmutable b h).2)).
Proof.
  intros Hb.
  destruct (MakeImmutable_views h b Hb) as (Hr & Hfr & Hf & Hi & _ & _).
  split; [done|]. split; [|split; [|split]].
  - intros ms. by apply frozen_trace_panics.
  - intros q. rewrite !ask_exec, Hf, Hi; [done..|].
    unfold frozen in Hfr. by destruct (bimaps (MakeImmutable b h).2 !! b).
  - by apply MakeImmutable_again.
  - intros cs m. apply frozen_mutate_panics.
    by apply (exec_all_keeps kv_order vk_order).
Qed.
End make_immutable.

Section copying.
Context `{Countable A} {B : Type}.

Lemma foldl_insert_reverse (l : list (A * B)) :
  foldl (λ acc p, <[p.1 := p.2]> acc) (∅ : gmap A B) l = list_to_map (reverse l).
Proof.
  induction l as [|[a x] l IH] using rev_ind; [done|].
  by rewrite foldl_snoc, reverse_snoc, list_to_map_cons, IH.
Qed.

(** Copying the entries of [m] one by one into an empty map yields [m],
    whatever the order of enumeration. *)
Lemma foldl_insert_enumeration (m : gmap A B) (l : list (A * B)) :
  l ≡ₚ map_to_list m →
  foldl (λ acc p, <[p.1 := p.2]> acc) (∅ : gmap A B) l = m.
Proof.
  intros Hl. rewrite foldl_insert_reverse.
  transitivity (list_to_map (map_to_list m) : gmap A B);
    [|apply list_to_map_to_list].
  symmetry. apply list_to_map_proper; [apply NoDup_fst_map_to_list|].
  by rewrite reverse_Permutation.
Qed.
End copying.

Section copy_loops.
Context `{Countable K, Countable V, GoZero K, GoZero V}.
Implicit Types (h : heap K V) (b : loc) (k : K) (v : V).

Lemma for_each_kv_set (l : list (K * V)) (m : loc) (g : gmap K V) h :
  kv_maps h !! m = Some g →
  for_each l (λ kv, kv_set m kv.1 kv.2) h =
    (Val tt,
     set_kv_maps (<[m := foldl (λ acc p, <[p.1 := p.2]> acc) g l]> (kv_maps h)) h).
Proof.
  revert g h. induction l as [|[k v] l IH]; intros g h Hm; simpl.
  - unfold mret, go_ret, set_kv_maps. rewrite insert_id by done. by destruct h.
  - unfold mbind, go_bind, kv_set at 1, st_set. rewrite Hm.
    rewrite (IH (<[k := v]> g)); simpl; [|by rewrite lookup_insert_eq].
    unfold set_kv_maps; simpl. by rewrite insert_insert_eq.
Qed.

Lemma for_each_vk_set (l : list (V * K)) (m : loc) (g : gmap V K) h :
  vk_maps h !! m = Some g →
  for_each l (λ vk, vk_set m vk.1 vk.2) h =
    (Val tt,
     set_vk_maps (<[m := foldl (λ acc p, <[p.1 := p.2]> acc) g l]> (vk_maps h)) h).
Proof.
  revert g h. induction l as [|[v k] l IH]; intros g h Hm; simpl.
  - unfold mret, go_ret, set_vk_maps. rewrite insert_id by done. by destruct h.
  - unfold mbind, go_bind, vk_set at 1, st_set. rewrite Hm.
    rewrite (IH (<[v := k]> g)); simpl; [|by rewrite lookup_insert_eq].
    unfold set_vk_maps; simpl. by rewrite insert_insert_eq.
Qed.
End copy_loops.

Section snapshot.
Context `{Countable K, Countable V, GoZero K, GoZero V}.
Variable kv_order : gmap K V → list (K * V).
Variable vk_order : gmap V K → list (V * K).
Hypothesis kv_order_enum : ∀ m, kv_order m ≡ₚ map_to_list m.
Hypothesis vk_order_enum : ∀ m, vk_order m ≡ₚ map_to_list m.
Implicit Types (h : heap K V) (b : loc) (k : K) (v : V)
  (m : mutation K V) (q : query K V) (ss : list (source_step K V)).

Lemma fresh_not_allocated {X} (s : gmap loc X) l x :
  s !! l = Some x → l ≠ fresh (dom s).
Proof. intros Hl ->. apply (is_fresh (dom s)), elem_of_dom. eauto. Qed.

Lemma kv_range_copy h src dst f :
  kv_maps h !! src = Some f → kv_maps h !! dst = Some ∅ →
  kv_range kv_order src (λ k v, kv_set dst k v) h
  = (Val tt, set_kv_maps (<[dst := f]> (kv_maps h)) h).
Proof.
  intros Hsrc Hdst. unfold kv_range, st_at. rewrite Hsrc. simpl.
  rewrite (for_each_kv_set _ dst ∅) by done.
  by rewrite (foldl_insert_enumeration f) by apply kv_order_enum.
Qed.

Lemma vk_range_copy h src dst i :
  vk_maps h !! src = Some i → vk_maps h !! dst = Some ∅ →
  vk_range vk_order src (λ v k, vk_set dst v k) h
  = (Val tt, set_vk_maps (<[dst := i]> (vk_maps h)) h).
Proof.
  intros Hsrc Hdst. unfold vk_range, st_at. rewrite Hsrc. simpl.
  rewrite (for_each_vk_set _ dst ∅) by done.
  by rewrite (foldl_insert_enumeration i) by apply vk_order_enum.
Qed.

Lemma Freeze_exec h b B f i :
  bimaps h !! b = Some B →
  kv_maps h !! BiMap_forward B = Some f →
  vk_maps h !! BiMap_inverse B = Some i →
  Freeze kv_order vk_order b h =
    (Val (fresh (dom (ibimaps h))),
     mkHeap (<[fresh (dom (kv_maps h)) := f]> (kv_maps h))
            (<[fresh (dom (vk_maps h)) := i]> (vk_maps h))
            (bimaps h)
            (<[fresh (dom (ibimaps h)) :=
                 mkImmutableBiMap (fresh (dom (kv_maps h)))
                                  (fresh (dom (vk_maps h)))]> (ibimaps h))).
Proof.
  intros Hb Hf Hi. destruct h as [kv vk bm ibm]; simpl in *.
  pose proof (fresh_not_allocated _ _ _ Hf) as Hnf.
  pose proof (fresh_not_allocated _ _ _ Hi) as Hni.
  pose proof (kv_range_copy
    (mkHeap (<[fresh (dom kv) := ∅]> kv) (<[fresh (dom vk) := ∅]> vk) bm ibm)
    (BiMap_forward B) (fresh (dom kv)) f) as Hkv.
  pose proof (vk_range_copy
    (mkHeap (<[fresh (dom kv) := f]> kv) (<[fresh (dom vk) := ∅]> vk) bm ibm)
    (BiMap_inverse B) (fresh (dom vk)) i) as Hvk.
  simpl in Hkv, Hvk.
  rewrite lookup_insert_ne, lookup_insert_eq in Hkv by done.
  rewrite lookup_insert_ne, lookup_insert_eq in Hvk by done.
  specialize (Hkv Hf eq_refl). specialize (Hvk Hi eq_refl).
  unfold Freeze. go_run. rewrite Hkv. go_run. rewrite Hvk. go_run. done.
Qed.
End snapshot.

Section frames.
Context `{Countable K, Countable V, GoZero K, GoZero V}.
Implicit Types (h : heap K V) (b : loc) (k : K) (v : V)
  (m : mutation K V) (q : query K V) (s : source_step K V)
  (ss : list (source_step K V)).

Lemma only_touches_refl h b : valid_BiMap h b → only_touches b h h.
Proof. intros (B & Hb & Hf & Hi). exists B, B. eauto 10. Qed.

Lemma only_touches_valid h h' b : only_touches b h h' → valid_BiMap h' b.
Proof.
  intros (B & B' & _ & Hb' & Hf & Hi & _ & _ & Hkv & Hvk & _).
  exists B'. rewrite Hf, Hi. eauto.
Qed.

Lemma only_touches_trans h1 h2 h3 b :
  only_touches b h1 h2 → only_touches b h2 h3 → only_touches b h1 h3.
Proof.
  intros (B1 & B2 & Hb1 & Hb2 & Hf12 & Hi12 & Hkv12 & Hvk12 & _ & _ & Hib12)
         (B2' & B3 & Hb2' & Hb3 & Hf23 & Hi23 & Hkv23 & Hvk23 & ? & ? & Hib23).
  assert (B2' = B2) as -> by congruence.
  exists B1, B3. rewrite Hf12 in *. rewrite Hi12 in *.
  repeat split; try done; try congruence.
  - intros l Hl. by rewrite Hkv23, Hkv12.
  - intros l Hl. by rewrite Hvk23, Hvk12.
Qed.

Ltac touches B B' :=
  exists B, B'; simpl;
  repeat split;
  first [ eassumption | reflexivity
        | by rewrite lookup_insert_eq
        | by (intros; rewrite lookup_insert_ne)
        | by eauto ].

Lemma source_do_frame h b s :
  valid_BiMap h b → only_touches b h (source_do b s h).2.
Proof.
  intros Hv. pose proof (only_touches_refl h b Hv) as Hrefl.
  destruct Hv as (B & Hb & [f Hf] & [i Hi]).
  destruct s as [m| |k v|k|v k|v]; simpl.
  - destruct (BiMap_immutable B) eqn:Himm.
    { by rewrite (mutate_frozen h b B m). }
    destruct m as [k v|k|v]; simpl.
    + rewrite (Insert_exec h b B f i) by done. touches B B.
    + rewrite (DeleteByKey_exec h b B f i) by done.
      destruct (f !! k); [touches B B | done].
    + rewrite (DeleteByValue_exec h b B f i) by done.
      destruct (i !! v); [touches B B | done].
  - rewrite (MakeImmutable_exec h b B) by done.
    touches B (mkBiMap true (BiMap_forward B) (BiMap_inverse B)).
  - go_run. touches B B.
  - go_run. touches B B.
  - go_run. touches B B.
  - go_run. touches B B.
Qed.

Lemma source_run_frame h b ss :
  valid_BiMap h b → only_touches b h (source_run b ss h).
Proof.
  revert h. induction ss as [|s ss IH]; intros h Hv; simpl.
  - by apply only_touches_refl.
  - pose proof (source_do_frame h b s Hv) as Hstep.
    eapply only_touches_trans; [done|].
    apply IH. by eapply only_touches_valid.
Qed.
End frames.

Section freeze.
Context `{Countable K, Countable V, GoZero K, GoZero V}.
Variable kv_order : gmap K V → list (K * V).
Variable vk_order : gmap V K → list (V * K).
Hypothesis kv_order_enum : ∀ m, kv_order m ≡ₚ map_to_list m.
Hypothesis vk_order_enum : ∀ m, vk_order m ≡ₚ map_to_list m.
Implicit Types (h : heap K V) (b : loc) (k : K) (v : V)
  (m : mutation K V) (q : query K V) (ss : list (source_step K V)).

(** Reads of an [*ImmutableBiMap] depend only on its struct and on the
    two maps it points to. *)
Lemma iask_frame h h' s S q :
  ibimaps h !! s = Some S → ibimaps h' !! s = Some S →
  kv_maps h' !! ImmutableBiMap_forward S = kv_maps h !! ImmutableBiMap_forward S →
  vk_maps h' !! ImmutableBiMap_inverse S = vk_maps h !! ImmutableBiMap_inverse S →
  iask s q h' = ((iask s q h).1, h').
Proof.
  intros Hs Hs' Hkv Hvk. rewrite !iask_exec by eauto. simpl.
  unfold ifwd_of, iinv_of, st_at. by rewrite Hs, Hs', Hkv, Hvk.
Qed.

(** C5.  [Freeze] on a live instance [b] returns a new
    [*ImmutableBiMap] [s] whose two maps are new objects holding exactly
    the entries of the maps of [b] at the call.  The call leaves [b] as
    it was: same struct, same flag, same entries.  Whatever is done to
    [b] afterwards (any sequence of the three mutators, [MakeImmutable]
    and writes through the live maps of [b]), every read of [s] returns
    what it returned right after the call, which is what the entries of
    [b] at the call determine. *)
Theorem Freeze_snapshot h b :
  valid_BiMap h b →
  ∃ s S,
    (Freeze kv_order vk_order b h).1 = Val s
    ∧ ibimaps h !! s = None
    ∧ ibimaps (Freeze kv_order vk_order b h).2 !! s = Some S
    ∧ kv_maps h !! ImmutableBiMap_forward S = None
    ∧ vk_maps h !! ImmutableBiMap_inverse S = None
    ∧ kv_maps (Freeze kv_order vk_order b h).2 !! ImmutableBiMap_forward S
      = Some (fwd_of h b)
    ∧ vk_maps (Freeze kv_order vk_order b h).2 !! ImmutableBiMap_inverse S
      = Some (inv_of h b)
    ∧ bimaps (Freeze kv_order vk_order b h).2 = bimaps h
    ∧ frozen (Freeze kv_order vk_order b h).2 b = frozen h b
    ∧ fwd_of (Freeze kv_order vk_order b h).2 b = fwd_of h b
    ∧ inv_of (Freeze kv_order vk_order b h).2 b = inv_of h b
    ∧ (∀ q, (iask s q (Freeze kv_order vk_order b h).2).1
            = Val (answer_of (fwd_of h b) (inv_of h b) q))
    ∧ (∀ ss q,
         iask s q (source_run b ss (Freeze kv_order vk_order b h).2)
         = ((iask s q (Freeze kv_order vk_order b h).2).1,
            source_run b ss (Freeze kv_order vk_order b h).2)).
Proof.
  intros Hv.
  destruct (valid_BiMap_open _ _ Hv) as (B & f & i & Hb & Hf & Hi & Hfo & Hio & _).
  rewrite (Freeze_exec kv_order vk_order kv_order_enum vk_order_enum h b B f i)
    by done.
  pose proof (fresh_not_allocated _ _ _ Hf) as Hnf.
  pose proof (fresh_not_allocated _ _ _ Hi) as Hni.
  set (lf := fresh (dom (kv_maps h))) in *.
  set (li := fresh (dom (vk_maps h))) in *.
  set (s := fresh (dom (ibimaps h))).
  set (h1 := mkHeap _ _ _ _).
  assert (kv_maps h !! lf = None) as Hlf by apply not_elem_of_dom, is_fresh.
  assert (vk_maps h !! li = None) as Hli by apply not_elem_of_dom, is_fresh.
  assert (ibimaps h !! s = None) as Hs by apply not_elem_of_dom, is_fresh.
  assert (ibimaps h1 !! s = Some (mkImmutableBiMap lf li)) as Hs1
    by apply lookup_insert_eq.
  assert (kv_maps h1 !! lf = Some f) as Hlf1 by apply lookup_insert_eq.
  assert (vk_maps h1 !! li = Some i) as Hli1 by apply lookup_insert_eq.
  assert (valid_BiMap h1 b) as Hv1.
  { exists B. simpl. rewrite !lookup_insert_ne by done. eauto. }
  assert (fwd_of h1 b = f) as Hf1.
  { unfold fwd_of, st_at; simpl. by rewrite Hb, lookup_insert_ne, Hf. }
  assert (inv_of h1 b = i) as Hi1.
  { unfold inv_of, st_at; simpl. by rewrite Hb, lookup_insert_ne, Hi. }
  exists s, (mkImmutableBiMap lf li). simpl. rewrite Hfo, Hio.
  do 11 (split; [done|]). split.
  - intros q. rewrite iask_exec by eauto. simpl.
    unfold ifwd_of, iinv_of, st_at. rewrite Hs1. cbn [ImmutableBiMap_forward
      ImmutableBiMap_inverse]. by rewrite Hlf1, Hli1.
  - intros ss q.
    destruct (source_run_frame h1 b ss Hv1)
      as (B1 & B2 & Hb1 & _ & _ & _ & Hkv & Hvk & _ & _ & Hib).
    assert (B1 = B) as -> by (simpl in Hb1; congruence).
    apply (iask_frame h1 _ s (mkImmutableBiMap lf li)); simpl.
    + done.
    + by rewrite Hib.
    + by apply Hkv.
    + by apply Hvk.
Qed.
End freeze.

Section copies.
Context `{Countable K, Countable V, GoZero K, GoZero V}.
Variable kv_order : gmap K V → list (K * V).
Variable vk_order : gmap V K → list (V * K).
Hypothesis kv_order_enum : ∀ m, kv_order m ≡ₚ map_to_list m.
Hypothesis vk_order_enum : ∀ m, vk_order m ≡ₚ map_to_list m.
Implicit Types (h : heap K V) (b : loc) (k : K) (v : V) (q : query K V).

Lemma Immutable_GetForwardMap_exec h b S f :
  ibimaps h !! b = Some S →
  kv_maps h !! ImmutableBiMap_forward S = Some f →
  Immutable.GetForwardMap kv_order b h =
    (Val (fresh (dom (kv_maps h))),
     set_kv_maps (<[fresh (dom (kv_maps h)) := f]> (kv_maps h)) h).
Proof.
  intros Hb Hf. destruct h as [kv vk bm ibm]; simpl in *.
  pose proof (fresh_not_allocated _ _ _ Hf) as Hnf.
  pose proof (kv_range_copy kv_order kv_order_enum
    (mkHeap (<[fresh (dom kv) := ∅]> kv) vk bm ibm)
    (ImmutableBiMap_forward S) (fresh (dom kv)) f) as Hkv.
  simpl in Hkv. rewrite lookup_insert_ne, lookup_insert_eq in Hkv by done.
  specialize (Hkv Hf eq_refl).
  unfold Immutable.GetForwardMap. go_run. rewrite Hkv. go_run. done.
Qed.

Lemma Immutable_GetInverseMap_exec h b S i :
  ibimaps h !! b = Some S →
  vk_maps h !! ImmutableBiMap_inverse S = Some i →
  Immutable.GetInverseMap vk_order b h =
    (Val (fresh (dom (vk_maps h))),
     set_vk_maps (<[fresh (dom (vk_maps h)) := i]> (vk_maps h)) h).
Proof.
  intros Hb Hi. destruct h as [kv vk bm ibm]; simpl in *.
  pose proof (fresh_not_allocated _ _ _ Hi) as Hni.
  pose proof (vk_range_copy vk_order vk_order_enum
    (mkHeap kv (<[fresh (dom vk) := ∅]> vk) bm ibm)
    (ImmutableBiMap_inverse S) (fresh (dom vk)) i) as Hvk.
  simpl in Hvk. rewrite lookup_insert_ne, lookup_insert_eq in Hvk by done.
  specialize (Hvk Hi eq_refl).
  unfold Immutable.GetInverseMap. go_run. rewrite Hvk. go_run. done.
Qed.

(** Writes to the map at [m] leave every other object alone. *)
Lemma kv_writes_frame (m : loc) (ws : list (map_write K V)) h :
  (∀ l, l ≠ m → kv_maps (kv_writes m ws h) !! l = kv_maps h !! l)
  ∧ vk_maps (kv_writes m ws h) = vk_maps h
  ∧ bimaps (kv_writes m ws h) = bimaps h
  ∧ ibimaps (kv_writes m ws h) = ibimaps h.
Proof.
  revert h. induction ws as [|w ws IH]; intros h; simpl; [done|].
  destruct (IH (kv_write m w h).2) as (Hkv & -> & -> & ->).
  assert ((∀ l, l ≠ m → kv_maps (kv_write m w h).2 !! l = kv_maps h !! l)
          ∧ vk_maps (kv_write m w h).2 = vk_maps h
          ∧ bimaps (kv_write m w h).2 = bimaps h
          ∧ ibimaps (kv_write m w h).2 = ibimaps h) as (Hkv1 & -> & -> & ->).
  { destruct w as [k v|k]; simpl; unfold kv_set, kv_delete, st_set, st_delete;
      destruct (kv_maps h !! m); simpl; repeat split; try done;
      intros l Hl; by rewrite lookup_insert_ne. }
  repeat split; try done. intros l Hl. by rewrite Hkv, Hkv1.
Qed.

Lemma vk_writes_frame (m : loc) (ws : list (map_write V K)) h :
  kv_maps (vk_writes m ws h) = kv_maps h
  ∧ (∀ l, l ≠ m → vk_maps (vk_writes m ws h) !! l = vk_maps h !! l)
  ∧ bimaps (vk_writes m ws h) = bimaps h
  ∧ ibimaps (vk_writes m ws h) = ibimaps h.
Proof.
  revert h. induction ws as [|w ws IH]; intros h; simpl; [done|].
  destruct (IH (vk_write m w h).2) as (-> & Hvk & -> & ->).
  assert (kv_maps (vk_write m w h).2 = kv_maps h
          ∧ (∀ l, l ≠ m → vk_maps (vk_write m w h).2 !! l = vk_maps h !! l)
          ∧ bimaps (vk_write m w h).2 = bimaps h
          ∧ ibimaps (vk_write m w h).2 = ibimaps h) as (-> & Hvk1 & -> & ->).
  { destruct w as [v k|v]; simpl; unfold vk_set, vk_delete, st_set, st_delete;
      destruct (vk_maps h !! m); simpl; repeat split; try done;
      intros l Hl; by rewrite lookup_insert_ne. }
  repeat split; try done. intros l Hl. by rewrite Hvk, Hvk1.
Qed.

(** C8.  On a live [*ImmutableBiMap] [b], [GetForwardMap] returns a map
    object that did not exist before the call and holds exactly the
    entries of the forward index; the call changes nothing else.
    Whatever the client then writes to or deletes from that map, every
    read of [b] returns what it returned before the call.
    [GetInverseMap] does the same for the inverse index. *)
Theorem copies_isolated h b :
  valid_ImmutableBiMap h b →
  (∃ m,
     Immutable.GetForwardMap kv_order b h
       = (Val m, set_kv_maps (<[m := ifwd_of h b]> (kv_maps h)) h)
     ∧ kv_maps h !! m = None
     ∧ ∀ ws q,
         iask b q (kv_writes m ws (Immutable.GetForwardMap kv_order b h).2)
         = ((iask b q h).1,
            kv_writes m ws (Immutable.GetForwardMap kv_order b h).2))
  ∧ (∃ m,
       Immutable.GetInverseMap vk_order b h
         = (Val m, set_vk_maps (<[m := iinv_of h b]> (vk_maps h)) h)
       ∧ vk_maps h !! m = None
       ∧ ∀ ws q,
           iask b q (vk_writes m ws (Immutable.GetInverseMap vk_order b h).2)
           = ((iask b q h).1,
              vk_writes m ws (Immutable.GetInverseMap vk_order b h).2)).
Proof.
  intros (S & Hb & [f Hf] & [i Hi]).
  assert (ifwd_of h b = f) as Hfo by (unfold ifwd_of, st_at; by rewrite Hb, Hf).
  assert (iinv_of h b = i) as Hio by (unfold iinv_of, st_at; by rewrite Hb, Hi).
  pose proof (fresh_not_allocated _ _ _ Hf) as Hnf.
  pose proof (fresh_not_allocated _ _ _ Hi) as Hni.
  split.
  - exists (fresh (dom (kv_maps h))).
    rewrite (Immutable_GetForwardMap_exec h b S f), Hfo by done.
    split; [done|]. split; [apply not_elem_of_dom, is_fresh|].
    intros ws q. simpl.
    destruct (kv_writes_frame (fresh (dom (kv_maps h))) ws
                (set_kv_maps (<[fresh (dom (kv_maps h)) := f]> (kv_maps h)) h))
      as (Hkv & Hvk & _ & Hib).
    apply (iask_frame h _ b S); [done|by rewrite Hib|..].
    + rewrite Hkv by done. simpl. by rewrite lookup_insert_ne.
    + by rewrite Hvk.
  - exists (fresh (dom (vk_maps h))).
    rewrite (Immutable_GetInverseMap_exec h b S i), Hio by done.
    split; [done|]. split; [apply not_elem_of_dom, is_fresh|].
    intros ws q. simpl.
    destruct (vk_writes_frame (fresh (dom (vk_maps h))) ws
                (set_vk_maps (<[fresh (dom (vk_maps h)) := i]> (vk_maps h)) h))
      as (Hkv & Hvk & _ & Hib).
    apply (iask_frame h _ b S); [done|by rewrite Hib|..].
    + by rewrite Hkv.
    + rewrite Hvk by done. simpl. by rewrite lookup_insert_ne.
Qed.
End copies.

(** ** The concrete instance *)

Lemma enum_refl `{Countable A} {B} (m : gmap A B) : map_to_list m ≡ₚ map_to_list m.
Proof. done. Qed.

(** The scenario of the README, run on the model. *)
Example readme_scenario :
  (b ← NewBiMap;
   Insert b "apples" 1;;
   Insert b "bananas" 2;;
   r1 ← GetByKey b "apples";
   r2 ← GetByValue b 2;
   DeleteByKey b "apples";;
   n ← Size b;
   e ← ExistsByKey b "apples";
   mret (r1, r2, n, e)) empty_heap
  = (Val ((1, true), ("bananas", true), 1, false),
     (DeleteByKey b1 "apples"
        (Insert b1 "bananas" 2 (Insert b1 "apples" 1 heap_new).2).2).2).
Proof. reflexivity. Qed.

Lemma valid_heap_new : valid_BiMap heap_new b1.
Proof. exists (mkBiMap false 1%positive 1%positive). vm_compute. eauto. Qed.

Lemma valid_heap_a : valid_BiMap heap_a b1.
Proof. exists (mkBiMap false 1%positive 1%positive). vm_compute. eauto. Qed.

Lemma valid_heap_ab : valid_BiMap heap_ab b1.
Proof. exists (mkBiMap false 1%positive 1%positive). vm_compute. eauto. Qed.

Lemma bijection_invariant_witness :
  NewBiMap empty_heap = (Val b1, heap_new)
  ∧ collision_free b1 fruit_ops heap_new
  ∧ Forall (λ r, r.1 = Val tt ∧ bijective r.2 b1) (trace b1 fruit_ops heap_new).
Proof.
  assert (collision_free b1 fruit_ops heap_new) as Hcf.
  { apply (bool_decide_unpack _). vm_compute. exact I. }
  split; [reflexivity|]. split; [exact Hcf|].
  exact (bijection_invariant empty_heap b1 heap_new fruit_ops eq_refl Hcf).
Defined.

(** C2, as stated, fails when the new value equals the old one: on the
    instance holding only [("a", 1)], [Insert("a", 1)] leaves no other key
    mapped to [1], yet [ExistsByValue(1)] is true afterwards. *)
Lemma overwrite_same_value_counterexample :
  valid_BiMap heap_a b1 ∧ frozen heap_a b1 = false
  ∧ fwd_of heap_a b1 !! "a" = Some 1
  ∧ ¬ overwrite_as_stated heap_a b1 "a" 1 1.
Proof.
  split; [apply valid_heap_a|]. split; [reflexivity|]. split; [reflexivity|].
  intros (_ & _ & _ & Hex & _).
  assert ((ExistsByValue b1 1 (Insert b1 "a" 1 heap_a).2).1 = Val false) as Hfalse.
  { apply Hex. intros (k' & Hne & Hk').
    destruct (Insert_spec heap_a b1 "a" 1 valid_heap_a eq_refl)
      as (_ & _ & _ & Hf & _).
    destruct (Insert_spec heap_new b1 "a" 1 valid_heap_new eq_refl)
      as (_ & _ & _ & Hf0 & _).
    fold heap_a in Hf0. rewrite Hf, Hf0 in Hk'.
    rewrite !lookup_insert_ne in Hk' by done.
    replace (fwd_of heap_new b1) with (∅ : gmap string Z) in Hk' by reflexivity.
    by rewrite lookup_empty in Hk'. }
  vm_compute in Hfalse. discriminate.
Qed.

Lemma Insert_overwrite_witness :
  valid_BiMap heap_a b1 ∧ frozen heap_a b1 = false
  ∧ fwd_of heap_a b1 !! "a" = Some 1
  ∧ (ExistsByValue b1 1 (Insert b1 "a" 5 heap_a).2).1 = Val false
  ∧ (GetByKey b1 "a" (Insert b1 "a" 5 heap_a).2).1 = Val (5, true).
Proof.
  split; [apply valid_heap_a|]. split; [reflexivity|]. split; [reflexivity|].
  destruct (Insert_overwrite heap_a b1 "a" 1 5 valid_heap_a eq_refl eq_refl)
    as (_ & _ & _ & He & Hg).
  split; [exact He | exact Hg].
Defined.

Lemma Insert_value_collision_witness :
  valid_BiMap heap_a b1 ∧ frozen heap_a b1 = false
  ∧ fwd_of heap_a b1 !! "a" = Some 1 ∧ "b" ≠ "a"
  ∧ fwd_of heap_a b1 !! "b" = None
  ∧ fwd_of (Insert b1 "b" 1 heap_a).2 b1 !! "a" = Some 1
  ∧ fwd_of (Insert b1 "b" 1 heap_a).2 b1 !! "b" = Some 1
  ∧ inv_of (Insert b1 "b" 1 heap_a).2 b1 !! 1 = Some "b"
  ∧ ¬ bijective (Insert b1 "b" 1 heap_a).2 b1.
Proof.
  assert ("b" ≠ "a") as Hne by discriminate.
  split; [apply valid_heap_a|]. split; [reflexivity|]. split; [reflexivity|].
  split; [exact Hne|]. split; [reflexivity|].
  destruct (Insert_value_collision heap_a b1 "a" "b" 1
              valid_heap_a eq_refl eq_refl Hne eq_refl)
    as (_ & _ & _ & Ha & Hb & Hi & Hbij).
  auto.
Defined.

Lemma MakeImmutable_final_witness :
  is_Some (bimaps heap_a !! b1)
  ∧ (MakeImmutable b1 heap_a).1 = Val tt
  ∧ mutate b1 (MInsert "New" 1) (MakeImmutable b1 heap_a).2
    = (Panic immutable_msg, (MakeImmutable b1 heap_a).2)
  ∧ ask b1 QSize (MakeImmutable b1 heap_a).2
    = ((ask b1 QSize heap_a).1, (MakeImmutable b1 heap_a).2).
Proof.
  assert (is_Some (bimaps heap_a !! b1)) as Hb.
  { exists (mkBiMap false 1%positive 1%positive). reflexivity. }
  split; [exact Hb|].
  destruct (MakeImmutable_final map_to_list map_to_list heap_a b1 Hb)
    as (Hr & _ & Hq & _ & Hm).
  split; [exact Hr|]. split; [exact (Hm [] (MInsert "New" 1)) | exact (Hq QSize)].
Defined.

Lemma Freeze_snapshot_witness :
  valid_BiMap heap_ab b1
  ∧ ∃ s,
      (Freeze map_to_list map_to_list b1 heap_ab).1 = Val s
      ∧ (iask s QSize (source_run b1 [SMutate (MInsert "c" 3)] heap_frozen)).1
        = Val (AInt 2)
      ∧ (iask s (QExistsByKey "c")
           (source_run b1 [SMutate (MInsert "c" 3)] heap_frozen)).1
        = Val (ABool false).
Proof.
  split; [apply valid_heap_ab|].
  destruct (Freeze_snapshot map_to_list map_to_list enum_refl enum_refl
              heap_ab b1 valid_heap_ab)
    as (s & S & Hs & _ & _ & _ & _ & _ & _ & _ & _ & _ & _ & Hnow & Hlater).
  exists s. split; [exact Hs|]. fold heap_frozen in Hnow, Hlater.
  rewrite !Hlater. cbn [fst]. rewrite !Hnow. split; reflexivity.
Defined.

Lemma Delete_present_absent_witness :
  valid_BiMap heap_ab b1 ∧ frozen heap_ab b1 = false
  ∧ (DeleteByKey b1 "zzz" heap_ab).2 = heap_ab
  ∧ (DeleteByValue b1 2 heap_ab).1 = Val tt.
Proof.
  split; [apply valid_heap_ab|]. split; [reflexivity|].
  destruct (Delete_present_absent heap_ab b1 "zzz" 2 valid_heap_ab eq_refl)
    as [[_ Hk] [Hv _]].
  split; [exact Hk | exact Hv].
Defined.

Lemma fallback_correct_witness :
  (is_Some (bimaps heap_a !! b1) ∧ ibimaps heap_a = ∅
   ∧ GetByKeyWithFallback b1 "a" (-1) heap_a = (Val 1, heap_a)
   ∧ GetByKeyWithFallback b1 "missing" (-1) heap_a = (Val (-1), heap_a)
   ∧ GetByValueWithFallback b1 1 "unknown" heap_a = (Val "a", heap_a)
   ∧ GetByValueWithFallback b1 99 "unknown" heap_a = (Val "unknown", heap_a))
  ∧ (is_Some (ibimaps heap_ib !! ib1) ∧ bimaps heap_ib = ∅
     ∧ Immutable.GetByKeyWithFallback ib1 "a" (-1) heap_ib = (Val 1, heap_ib)
     ∧ Immutable.GetByKeyWithFallback ib1 "missing" (-1) heap_ib
       = (Val (-1), heap_ib)
     ∧ Immutable.GetByValueWithFallback ib1 1 "unknown" heap_ib
       = (Val "a", heap_ib)
     ∧ Immutable.GetByValueWithFallback ib1 99 "unknown" heap_ib
       = (Val "unknown", heap_ib)).
Proof.
  assert (is_Some (bimaps heap_a !! b1)) as Hb.
  { exists (mkBiMap false 1%positive 1%positive). reflexivity. }
  assert (is_Some (ibimaps heap_ib !! ib1)) as Hib.
  { exists (mkImmutableBiMap 2%positive 1%positive). reflexivity. }
  split.
  - split; [exact Hb|]. split; [reflexivity|].
    destruct (proj1 (fallback_correct heap_a b1 ib1 "a" 1 (-1) "unknown") Hb)
      as [Hk1 Hv1].
    destruct (proj1 (fallback_correct heap_a b1 ib1 "missing" 99 (-1) "unknown") Hb)
      as [Hk2 Hv2].
    split; [exact Hk1|]. split; [exact Hk2|]. split; [exact Hv1 | exact Hv2].
  - split; [exact Hib|]. split; [reflexivity|].
    destruct (proj2 (fallback_correct heap_ib b1 ib1 "a" 1 (-1) "unknown") Hib)
      as [Hk1 Hv1].
    destruct (proj2 (fallback_correct heap_ib b1 ib1 "missing" 99 (-1) "unknown") Hib)
      as [Hk2 Hv2].
    split; [exact Hk1|]. split; [exact Hk2|]. split; [exact Hv1 | exact Hv2].
Defined.

Lemma copies_isolated_witness :
  valid_ImmutableBiMap heap_ib ib1
  ∧ ∃ m,
      (Immutable.GetForwardMap map_to_list ib1 heap_ib).1 = Val m
      ∧ (iask ib1 QSize
           (kv_writes m [WSet "b" 2]
              (Immutable.GetForwardMap map_to_list ib1 heap_ib).2)).1
        = Val (AInt 1)
      ∧ (iask ib1 (QExistsByKey "b")
           (kv_writes m [WSet "b" 2]
              (Immutable.GetForwardMap map_to_list ib1 heap_ib).2)).1
        = Val (ABool false).
Proof.
  assert (valid_ImmutableBiMap heap_ib ib1) as Hv.
  { exists (mkImmutableBiMap 2%positive 1%positive). vm_compute. eauto. }
  split; [exact Hv|].
  destruct (copies_isolated map_to_list map_to_list enum_refl enum_refl
              heap_ib ib1 Hv) as [(m & Hm & _ & Hreads) _].
  exists m. split; [by rewrite Hm|]. rewrite !Hreads. split; reflexivity.
Defined.

(** * Further properties of [bimap.go] *)

Section lookups.
Context `{Countable K, Countable V, GoZero K, GoZero V}.
Implicit Types (h : heap K V) (b : loc) (k : K) (v : V)
  (m : mutation K V) (q : query K V) (ms : list (mutation K V)).

(** X1.  [NewBiMap] always returns normally, with the address of a struct
    that did not exist before.  The new instance is mutable, its two maps
    are made, and every read sees it empty ([Size] is 0, every lookup
    misses).  Every struct and map that existed before the call is left
    as it was. *)
Theorem NewBiMap_empty h :
  ∃ b, NewBiMap h = (Val b, (NewBiMap h).2)
       ∧ bimaps h !! b = None
       ∧ valid_BiMap (NewBiMap h).2 b
       ∧ frozen (NewBiMap h).2 b = false
       ∧ (∀ q, ask b q (NewBiMap h).2 = (Val (answer_of ∅ ∅ q), (NewBiMap h).2))
       ∧ (∀ b', is_Some (bimaps h !! b') →
                bimaps (NewBiMap h).2 !! b' = bimaps h !! b')
       ∧ (∀ l, is_Some (kv_maps h !! l) →
               kv_maps (NewBiMap h).2 !! l = kv_maps h !! l)
       ∧ (∀ l, is_Some (vk_maps h !! l) →
               vk_maps (NewBiMap h).2 !! l = vk_maps h !! l)
       ∧ ibimaps (NewBiMap h).2 = ibimaps h.
Proof.
  destruct (NewBiMap_spec h) as (b & Hb & Hnew & Hv & Hfr & Hf & Hi).
  exists b. split; [by destruct (NewBiMap h); simpl in *; subst|].
  do 3 (split; [done|]). split.
  { intros q. rewrite ask_exec by by apply valid_BiMap_is_Some.
    by rewrite Hf, Hi. }
  unfold NewBiMap, new_BiMap, kv_make, vk_make, st_make, mbind, go_bind; simpl.
  repeat split.
  - intros b' [B' Hb']. rewrite lookup_insert_ne; [done|].
    intros <-. apply (is_fresh (dom (bimaps h))), elem_of_dom. eauto.
  - intros l [x Hl]. rewrite lookup_insert_ne; [done|].
    intros <-. apply (is_fresh (dom (kv_maps h))), elem_of_dom. eauto.
  - intros l [x Hl]. rewrite lookup_insert_ne; [done|].
    intros <-. apply (is_fresh (dom (vk_maps h))), elem_of_dom. eauto.
Qed.

(** X2.  After [Insert(k, v)] on a live, non-frozen instance, [GetByKey(k)]
    returns [(v, true)] and [GetByValue(v)] returns [(k, true)], and both
    membership tests succeed, whatever the instance held before. *)
Theorem Insert_then_lookup h b k v :
  valid_BiMap h b → frozen h b = false →
  GetByKey b k (Insert b k v h).2 = (Val (v, true), (Insert b k v h).2)
  ∧ GetByValue b v (Insert b k v h).2 = (Val (k, true), (Insert b k v h).2)
  ∧ ExistsByKey b k (Insert b k v h).2 = (Val true, (Insert b k v h).2)
  ∧ ExistsByValue b v (Insert b k v h).2 = (Val true, (Insert b k v h).2).
Proof.
  intros Hv Hfr.
  destruct (Insert_spec h b k v Hv Hfr) as (_ & Hv' & _ & Hf & Hi).
  apply valid_BiMap_is_Some in Hv'.
  rewrite GetByKey_exec, GetByValue_exec, ExistsByKey_exec, ExistsByValue_exec
    by done.
  rewrite Hf, Hi. unfold lookup_ok. rewrite !lookup_insert_eq.
  rewrite !bool_decide_eq_true_2 by eauto. done.
Qed.

(** X3.  [Insert(k, v)] on a live, non-frozen instance leaves the forward
    entry of every other key as it was, and leaves the inverse entry of
    every value other than [v] and the previous value of [k] as it
    was. *)
Theorem Insert_other_entries h b k v k' v' :
  valid_BiMap h b → frozen h b = false →
  (k' ≠ k →
   GetByKey b k' (Insert b k v h).2 = ((GetByKey b k' h).1, (Insert b k v h).2))
  ∧ (v' ≠ v → fwd_of h b !! k ≠ Some v' →
     GetByValue b v' (Insert b k v h).2
     = ((GetByValue b v' h).1, (Insert b k v h).2)).
Proof.
  intros Hv Hfr.
  destruct (Insert_spec h b k v Hv Hfr) as (_ & Hv' & _ & Hf & Hi).
  apply valid_BiMap_is_Some in Hv'. apply valid_BiMap_is_Some in Hv.
  rewrite !GetByKey_exec, !GetByValue_exec by done. simpl.
  rewrite Hf, Hi. unfold lookup_ok. split.
  - intros Hk. by rewrite lookup_insert_ne.
  - intros Hne Hold. rewrite lookup_insert_ne by done.
    destruct (fwd_of h b !! k) as [old|]; [|done].
    rewrite lookup_delete_ne; [done|]. congruence.
Qed.

(** X4.  [Size] after a mutation of a live, non-frozen instance:
    [Insert(k, v)] adds one when [k] was absent and nothing when it was
    present; [DeleteByKey(k)] takes one away when [k] was present and
    nothing when it was absent. *)
Theorem Size_after_mutation h b k v :
  valid_BiMap h b → frozen h b = false →
  (Size b (Insert b k v h).2).1
    = Val (Z.of_nat (size (fwd_of h b))
           + match fwd_of h b !! k with Some _ => 0 | None => 1 end)
  ∧ (Size b (DeleteByKey b k h).2).1
    = Val (Z.of_nat (size (fwd_of h b))
           - match fwd_of h b !! k with Some _ => 1 | None => 0 end).
Proof.
  intros Hv Hfr.
  destruct (Insert_spec h b k v Hv Hfr) as (_ & Hvi & _ & Hf & _).
  destruct (DeleteByKey_spec h b k Hv Hfr) as (_ & Hvd & _ & Hd).
  rewrite !Size_exec by by apply valid_BiMap_is_Some.
  simpl. rewrite Hf, map_size_insert. split.
  - f_equal. destruct (fwd_of h b !! k); simpl; lia.
  - f_equal. destruct (fwd_of h b !! k) as [val|] eqn:Hk.
    + destruct Hd as [-> _]. rewrite map_size_delete, Hk.
      assert (size (fwd_of h b) ≠ 0%nat).
      { intros Hz%map_size_empty_iff. by rewrite Hz, lookup_empty in Hk. }
      simpl. lia.
    + rewrite Hd. lia.
Qed.

(** X5.  On a live, non-frozen instance where [k] is not mapped and [v]
    has no inverse entry, [Insert(k, v)] followed by [DeleteByKey(k)], or
    by [DeleteByValue(v)], returns normally and gives back exactly the
    heap before the insert. *)
Theorem Insert_Delete_round_trip h b k v :
  valid_BiMap h b → frozen h b = false →
  fwd_of h b !! k = None → inv_of h b !! v = None →
  DeleteByKey b k (Insert b k v h).2 = (Val tt, h)
  ∧ DeleteByValue b v (Insert b k v h).2 = (Val tt, h).
Proof.
  intros Hv Hfr.
  destruct (valid_BiMap_open _ _ Hv) as (B & f & i & Hb & Hf & Hi & -> & -> & HB).
  intros Hk Hvi. rewrite Hfr in HB.
  rewrite (Insert_exec h b B f i) by done. rewrite Hk. simpl.
  rewrite (DeleteByKey_exec _ b B (<[k := v]> f) (<[v := k]> i));
    [|done|done|simpl; by rewrite lookup_insert_eq..].
  rewrite (DeleteByValue_exec _ b B (<[k := v]> f) (<[v := k]> i));
    [|done|done|simpl; by rewrite lookup_insert_eq..].
  rewrite !lookup_insert_eq. simpl.
  rewrite !insert_insert_eq, !delete_insert_id by done.
  rewrite !insert_id by done. by destruct h.
Qed.

(** X6.  When [forward[k] == v] and [inverse[v] == k] on a live,
    non-frozen instance, [DeleteByKey(k)] and [DeleteByValue(v)] are the
    same operation: same outcome, same heap. *)
Theorem Delete_either_side h b k v :
  valid_BiMap h b → frozen h b = false →
  fwd_of h b !! k = Some v → inv_of h b !! v = Some k →
  DeleteByKey b k h = DeleteByValue b v h.
Proof.
  intros Hv Hfr.
  destruct (valid_BiMap_open _ _ Hv) as (B & f & i & Hb & Hf & Hi & -> & -> & HB).
  intros Hk Hvi. rewrite Hfr in HB.
  rewrite (DeleteByKey_exec h b B f i), (DeleteByValue_exec h b B f i) by done.
  by rewrite Hk, Hvi.
Qed.

(** X7.  Deleting twice is deleting once: on every heap and receiver a
    second [DeleteByKey(k)] has the same outcome and leaves the same
    heap as the first, and likewise for [DeleteByValue(v)]. *)
Theorem Delete_idempotent h b k v :
  DeleteByKey b k (DeleteByKey b k h).2 = DeleteByKey b k h
  ∧ DeleteByValue b v (DeleteByValue b v h).2 = DeleteByValue b v h.
Proof.
  destruct h as [kv vk bm ibm].
  destruct (bm !! b) as [[imm fwd inv]|] eqn:Hb; [|by go_run].
  destruct imm; [by go_run|]. split.
  - destruct (kv !! fwd) as [f|] eqn:Hf; [|by go_run].
    go_run. destruct (f !! k) as [val|] eqn:Hk; go_run; [|done].
    rewrite lookup_delete_eq. simpl. done.
  - destruct (vk !! inv) as [i|] eqn:Hi; [|by go_run].
    go_run. destruct (i !! v) as [key|] eqn:Hv; go_run; [|done].
    rewrite lookup_delete_eq. simpl. done.
Qed.
End lookups.

Section runs.
Context `{Countable K, Countable V, GoZero K, GoZero V}.
Implicit Types (h : heap K V) (b : loc) (k : K) (v : V)
  (m : mutation K V) (q : query K V) (ms : list (mutation K V))
  (s : source_step K V) (ss : list (source_step K V)).

Lemma trace_stays_consistent h b ms :
  consistent h b → collision_free b ms h →
  Forall (λ r, consistent r.2 b) (trace b ms h).
Proof.
  revert h. induction ms as [|m ms IH]; intros h Hc Hcf; simpl; [constructor|].
  destruct Hcf as [Hnc Hcf].
  destruct (mutate_consistent h b m Hc Hnc) as [_ Hc'].
  constructor; [done|]. by apply IH.
Qed.

Lemma lookup_ok_true {A B} `{Countable A, GoZero B} (f : gmap A B) a x :
  lookup_ok f a = (x, true) ↔ f !! a = Some x.
Proof.
  unfold lookup_ok. destruct (f !! a); split; intros Heq; by simplify_eq.
Qed.

(** X8.  Along every run of [Insert], [DeleteByKey] and [DeleteByValue]
    that starts from [NewBiMap] and has no colliding insert, the two
    lookups are inverse to each other after each operation: [GetByKey(k)]
    returns [(v, true)] exactly when [GetByValue(v)] returns
    [(k, true)]. *)
Theorem lookups_inverse_along_runs h0 b h ms :
  NewBiMap h0 = (Val b, h) →
  collision_free b ms h →
  Forall (λ r, ∀ k v, (GetByKey b k r.2).1 = Val (v, true)
                      ↔ (GetByValue b v r.2).1 = Val (k, true))
         (trace b ms h).
Proof.
  intros Hnew Hcf.
  assert (consistent h b) as Hc.
  { destruct (NewBiMap_spec h0) as (b' & Hb' & _ & Hv & Hfr & Hf & Hi).
    rewrite Hnew in *. simpl in *. injection Hb' as <-.
    do 2 (split; [done|]). rewrite Hf, Hi. apply mutual_inverse_empty. }
  eapply Forall_impl; [by apply trace_stays_consistent|].
  intros [r h'] (Hv & _ & Hfi) k v. simpl in *.
  apply valid_BiMap_is_Some in Hv.
  rewrite GetByKey_exec, GetByValue_exec by done. simpl.
  split; intros [= Heq]; f_equal; apply lookup_ok_true;
    apply lookup_ok_true in Heq; by apply Hfi.
Qed.

(** X9.  After the colliding insert ([forward[k1] == v], then
    [Insert(k2, v)] with [k2] new), [DeleteByKey(k1)] returns normally
    and removes [k1], but it also deletes the inverse entry of [v], which
    pointed at [k2]: afterwards [GetByKey(k2)] still returns [(v, true)]
    while [ExistsByValue(v)] is false.  Removing the old key does not
    restore the bijection. *)
Theorem collision_then_delete h b k1 k2 v :
  valid_BiMap h b → frozen h b = false →
  fwd_of h b !! k1 = Some v → k2 ≠ k1 → fwd_of h b !! k2 = None →
  (DeleteByKey b k1 (Insert b k2 v h).2).1 = Val tt
  ∧ (ExistsByKey b k1 (DeleteByKey b k1 (Insert b k2 v h).2).2).1 = Val false
  ∧ (GetByKey b k2 (DeleteByKey b k1 (Insert b k2 v h).2).2).1 = Val (v, true)
  ∧ (ExistsByValue b v (DeleteByKey b k1 (Insert b k2 v h).2).2).1 = Val false
  ∧ ¬ bijective (DeleteByKey b k1 (Insert b k2 v h).2).2 b.
Proof.
  intros Hv Hfr Hk1 Hne Hk2.
  destruct (Insert_spec h b k2 v Hv Hfr) as (_ & Hv1 & Hfr1 & Hf1 & Hi1).
  rewrite Hk2 in Hi1.
  destruct (DeleteByKey_spec _ b k1 Hv1 Hfr1) as (Hr & Hv2 & _ & Hd).
  rewrite Hf1, lookup_insert_ne, Hk1 in Hd by done. destruct Hd as [Hf2 Hi2].
  rewrite ?Hf1 in Hf2. rewrite ?Hi1 in Hi2.
  assert (fwd_of (DeleteByKey b k1 (Insert b k2 v h).2).2 b !! k2 = Some v) as Hk2'.
  { by rewrite Hf2, lookup_delete_ne, lookup_insert_eq. }
  assert (inv_of (DeleteByKey b k1 (Insert b k2 v h).2).2 b !! v = None) as Hv'.
  { by rewrite Hi2, lookup_delete_eq. }
  apply valid_BiMap_is_Some in Hv2.
  rewrite !ExistsByKey_exec, GetByKey_exec, ExistsByValue_exec by done. simpl.
  assert (fwd_of (DeleteByKey b k1 (Insert b k2 v h).2).2 b !! k1 = None) as Hk1'.
  { by rewrite Hf2, lookup_delete_eq. }
  unfold lookup_ok. rewrite Hk2', Hv', Hk1'.
  rewrite !bool_decide_eq_false_2 by (by intros [? ?]).
  do 4 (split; [done|]). intros [Hbij _].
  specialize (Hbij k2 v Hk2'). congruence.
Qed.

(** X10.  [GetForwardMap] and [GetInverseMap] of [*BiMap] return the
    maps the struct itself points to and change nothing.  A write
    [m[k] = v] through the map returned by [GetForwardMap] is seen by
    [GetByKey(k)] at once, whether or not the instance is frozen, and
    leaves the inverse index and the flag as they were. *)
Theorem live_maps_alias h b B k v :
  bimaps h !! b = Some B →
  is_Some (kv_maps h !! BiMap_forward B) →
  GetForwardMap b h = (Val (BiMap_forward B), h)
  ∧ GetInverseMap b h = (Val (BiMap_inverse B), h)
  ∧ (source_do b (SForwardSet k v) h).1 = Val tt
  ∧ (GetByKey b k (source_do b (SForwardSet k v) h).2).1 = Val (v, true)
  ∧ inv_of (source_do b (SForwardSet k v) h).2 b = inv_of h b
  ∧ frozen (source_do b (SForwardSet k v) h).2 b = frozen h b.
Proof.
  intros Hb [f Hf]. destruct h as [kv vk bm ibm]; simpl in *.
  unfold inv_of, frozen. go_run. done.
Qed.

(** X11.  On a [BiMap] whose maps were never made (the zero value of the
    struct), [Insert] panics with "assignment to entry in nil map" and
    changes nothing, the two deletes return normally and change nothing,
    and every read sees an empty instance. *)
Theorem zero_value_BiMap h b B k v :
  bimaps h !! b = Some B → BiMap_immutable B = false →
  kv_maps h !! BiMap_forward B = None →
  vk_maps h !! BiMap_inverse B = None →
  Insert b k v h = (Panic nil_map_write, h)
  ∧ DeleteByKey b k h = (Val tt, h)
  ∧ DeleteByValue b v h = (Val tt, h)
  ∧ ∀ q, ask b q h = (Val (answer_of ∅ ∅ q), h).
Proof.
  intros Hb Himm Hf Hi. repeat split.
  - destruct h as [kv vk bm ibm]. by go_run.
  - destruct h as [kv vk bm ibm]. by go_run.
  - destruct h as [kv vk bm ibm]. by go_run.
  - intros q. rewrite ask_exec by eauto.
    unfold fwd_of, inv_of, st_at. by rewrite Hb, Hf, Hi.
Qed.
End runs.

Section independence.
Context `{Countable K, Countable V, GoZero K, GoZero V}.
Implicit Types (h : heap K V) (b : loc) (k : K) (v : V)
  (m : mutation K V) (q : query K V)
  (s : source_step K V) (ss : list (source_step K V)).

Lemma source_do_others h b s b' :
  valid_BiMap h b → b' ≠ b →
  bimaps (source_do b s h).2 !! b' = bimaps h !! b'.
Proof.
  intros (B & Hb & [f Hf] & [i Hi]) Hne.
  destruct s as [m| |k v|k|v k|v]; simpl.
  - destruct (BiMap_immutable B) eqn:Himm.
    { by rewrite (mutate_frozen h b B m). }
    destruct m as [k v|k|v]; simpl.
    + by rewrite (Insert_exec h b B f i).
    + rewrite (DeleteByKey_exec h b B f i) by done. by destruct (f !! k).
    + rewrite (DeleteByValue_exec h b B f i) by done. by destruct (i !! v).
  - rewrite (MakeImmutable_exec h b B) by done. simpl.
    by rewrite lookup_insert_ne.
  - go_run. done.
  - go_run. done.
  - go_run. done.
  - go_run. done.
Qed.

Lemma source_run_others h b ss b' :
  valid_BiMap h b → b' ≠ b →
  bimaps (source_run b ss h) !! b' = bimaps h !! b'.
Proof.
  revert h. induction ss as [|s ss IH]; intros h Hv Hne; simpl; [done|].
  rewrite IH; [by apply source_do_others| |done].
  eapply only_touches_valid. by apply source_do_frame.
Qed.

(** X12.  Two instances whose structs and maps are different objects do
    not interfere: whatever is done to one of them (the three mutators,
    [MakeImmutable], writes through its live maps), every read of the
    other returns what it returned before, and the other keeps its
    flag. *)
Theorem instances_independent h b b' :
  valid_BiMap h b → apart h b b' →
  ∀ ss q,
    ask b' q (source_run b ss h) = ((ask b' q h).1, source_run b ss h)
    ∧ frozen (source_run b ss h) b' = frozen h b'.
Proof.
  intros Hv (B & B' & Hb & Hb' & Hne & Hfne & Hine) ss q.
  destruct (source_run_frame h b ss Hv)
    as (B1 & B2 & Hb1 & _ & _ & _ & Hkv & Hvk & _ & _ & _).
  assert (B1 = B) as -> by congruence.
  pose proof (source_run_others h b ss b' Hv (not_eq_sym Hne)) as Hsame.
  rewrite !ask_exec by (rewrite ?Hsame; eauto). simpl.
  unfold fwd_of, inv_of, frozen, st_at. rewrite Hsame, Hb'.
  rewrite Hkv, Hvk by done. done.
Qed.

(** X13.  The reads of a live [*BiMap] agree with one another and change
    nothing: [GetByKey(k)] returns some [(val, ok)], where [val] is the
    zero value when [ok] is false; [ExistsByKey(k)] returns that [ok];
    [GetByKeyWithFallback(k, d)] returns [val] when [ok] and [d]
    otherwise.  The same holds on the value side. *)
Theorem reads_agree h b k v (dv : V) (dk : K) :
  is_Some (bimaps h !! b) →
  (∃ val ok,
     GetByKey b k h = (Val (val, ok), h)
     ∧ ExistsByKey b k h = (Val ok, h)
     ∧ GetByKeyWithFallback b k dv h = (Val (if ok then val else dv), h)
     ∧ (ok = false → val = go_zero))
  ∧ (∃ key ok,
       GetByValue b v h = (Val (key, ok), h)
       ∧ ExistsByValue b v h = (Val ok, h)
       ∧ GetByValueWithFallback b v dk h = (Val (if ok then key else dk), h)
       ∧ (ok = false → key = go_zero)).
Proof.
  intros [B Hb]. split.
  - destruct (st_at (kv_maps h) (BiMap_forward B) !! k) as [x|] eqn:Hk.
    + exists x, true. unfold st_at in Hk. go_run. rewrite ?Hk. done.
    + exists go_zero, false. unfold st_at in Hk. go_run. rewrite ?Hk. done.
  - destruct (st_at (vk_maps h) (BiMap_inverse B) !! v) as [x|] eqn:Hv.
    + exists x, true. unfold st_at in Hv. go_run. rewrite ?Hv. done.
    + exists go_zero, false. unfold st_at in Hv. go_run. rewrite ?Hv. done.
Qed.

(** X14.  The same for a live [*ImmutableBiMap], whose reads take no
    lock: they agree with one another, a miss gives the zero value and
    false, and no read changes the heap. *)
Theorem Immutable_reads_agree h b k v (dv : V) (dk : K) :
  is_Some (ibimaps h !! b) →
  (∃ val ok,
     Immutable.GetByKey b k h = (Val (val, ok), h)
     ∧ Immutable.ExistsByKey b k h = (Val ok, h)
     ∧ Immutable.GetByKeyWithFallback b k dv h
       = (Val (if ok then val else dv), h)
     ∧ (ok = false → val = go_zero))
  ∧ (∃ key ok,
       Immutable.GetByValue b v h = (Val (key, ok), h)
       ∧ Immutable.ExistsByValue b v h = (Val ok, h)
       ∧ Immutable.GetByValueWithFallback b v dk h
         = (Val (if ok then key else dk), h)
       ∧ (ok = false → key = go_zero))
  ∧ Immutable.Size b h = (Val (Z.of_nat (size (ifwd_of h b))), h).
Proof.
  intros [B Hb]. split; [|split].
  - destruct (st_at (kv_maps h) (ImmutableBiMap_forward B) !! k) as [x|] eqn:Hk.
    + exists x, true. unfold st_at in Hk. go_run. rewrite ?Hk. done.
    + exists go_zero, false. unfold st_at in Hk. go_run. rewrite ?Hk. done.
  - destruct (st_at (vk_maps h) (ImmutableBiMap_inverse B) !! v) as [x|] eqn:Hv.
    + exists x, true. unfold st_at in Hv. go_run. rewrite ?Hv. done.
    + exists go_zero, false. unfold st_at in Hv. go_run. rewrite ?Hv. done.
  - unfold ifwd_of. go_run. done.
Qed.
End independence.

(** * Further properties of the constructors *)

Section inverse_entries_facts.
Context `{Countable K, Countable V, GoZero K, GoZero V}.
Implicit Types (l : list (K * V)) (k : K) (v : V) (m : gmap K V).

Lemma inverse_entries_snoc l k v :
  inverse_entries (l ++ [(k, v)]) = <[v := k]> (inverse_entries l).
Proof. unfold inverse_entries. by rewrite foldl_snoc. Qed.

Lemma inverse_entries_sound l v k :
  inverse_entries l !! v = Some k → (k, v) ∈ l.
Proof.
  induction l as [|[k0 v0] l IH] using rev_ind.
  - unfold inverse_entries. simpl. by rewrite lookup_empty.
  - rewrite inverse_entries_snoc, elem_of_app, list_elem_of_singleton.
    destruct (decide (v0 = v)) as [->|Hne].
    + rewrite lookup_insert_eq. intros [= ->]. by right.
    + rewrite lookup_insert_ne by done. intros Hl. left. by apply IH.
Qed.

Lemma inverse_entries_covers l k v :
  (k, v) ∈ l → is_Some (inverse_entries l !! v).
Proof.
  induction l as [|[k0 v0] l IH] using rev_ind.
  - by intros ?%elem_of_nil.
  - rewrite inverse_entries_snoc, elem_of_app, list_elem_of_singleton.
    destruct (decide (v0 = v)) as [->|Hne].
    + rewrite lookup_insert_eq. eauto.
    + rewrite lookup_insert_ne by done. intros [Hl|[= -> ->]]; [by apply IH|done].
Qed.

(** For a map without repeated values the inverse index does not depend
    on the order of enumeration: it is the inverse of the map. *)
Lemma inverse_entries_injective m l :
  l ≡ₚ map_to_list m → injective_map m →
  mutual_inverse m (inverse_entries l).
Proof.
  intros Hl Hinj k v. split.
  - intros Hk.
    destruct (inverse_entries_covers l k v) as [k' Hk'].
    { rewrite Hl. by apply elem_of_map_to_list. }
    pose proof Hk' as Hin%inverse_entries_sound.
    rewrite Hl in Hin. apply elem_of_map_to_list in Hin.
    by rewrite (Hinj k k' v Hk Hin).
  - intros Hv%inverse_entries_sound. rewrite Hl in Hv.
    by apply elem_of_map_to_list.
Qed.

Lemma mutual_inverse_unique m (i i' : gmap V K) :
  mutual_inverse m i → mutual_inverse m i' → i = i'.
Proof.
  intros Hi Hi'. apply map_eq. intros v. apply option_eq. intros k.
  split; intros Hv.
  - by apply Hi', Hi.
  - by apply Hi, Hi'.
Qed.
End inverse_entries_facts.

Section constructor_loops.
Context `{Countable K, Countable V, GoZero K, GoZero V}.
Implicit Types (h : heap K V) (b : loc) (k : K) (v : V)
  (l : list (K * V)) (f : gmap K V) (i : gmap V K).

(** The loop of [NewBiMapFromMap]: the keys of [l] are distinct and new
    to the instance, so no insert takes the branch that deletes. *)
Lemma for_each_Insert l b B f i h :
  bimaps h !! b = Some B → BiMap_immutable B = false →
  kv_maps h !! BiMap_forward B = Some f →
  vk_maps h !! BiMap_inverse B = Some i →
  NoDup l.*1 → (∀ p, p ∈ l → f !! p.1 = None) →
  for_each l (λ kv, Insert b kv.1 kv.2) h =
    (Val tt,
     mkHeap (<[BiMap_forward B := foldl (λ acc p, <[p.1 := p.2]> acc) f l]>
               (kv_maps h))
            (<[BiMap_inverse B := foldl (λ acc p, <[p.2 := p.1]> acc) i l]>
               (vk_maps h))
            (bimaps h) (ibimaps h)).
Proof.
  revert f i h. induction l as [|[k v] l IH]; intros f i h Hb Himm Hf Hi Hnd Hnew.
  - simpl. unfold mret, go_ret. rewrite !insert_id by done. by destruct h.
  - simpl in *. apply NoDup_cons in Hnd as [Hk Hnd].
    unfold mbind, go_bind. rewrite (Insert_exec h b B f i) by done.
    assert (f !! k = None) as -> by (by apply (Hnew (k, v)); left).
    rewrite (IH (<[k := v]> f) (<[v := k]> i)); simpl;
      [|done|done|by rewrite lookup_insert_eq..|done|].
    + by rewrite !insert_insert_eq.
    + intros [k' v'] Hin. simpl. rewrite lookup_insert_ne.
      * by apply (Hnew (k', v')); right.
      * intros ->. apply Hk. apply list_elem_of_fmap. by exists (k', v').
Qed.

(** The loop of [NewImmutableBiMapFromMap]. *)
Lemma for_each_set_both l (fwd inv : loc) f i h :
  kv_maps h !! fwd = Some f → vk_maps h !! inv = Some i →
  for_each l (λ kv, kv_set fwd kv.1 kv.2;; vk_set inv kv.2 kv.1) h =
    (Val tt,
     mkHeap (<[fwd := foldl (λ acc p, <[p.1 := p.2]> acc) f l]> (kv_maps h))
            (<[inv := foldl (λ acc p, <[p.2 := p.1]> acc) i l]> (vk_maps h))
            (bimaps h) (ibimaps h)).
Proof.
  revert f i h. induction l as [|[k v] l IH]; intros f i h Hf Hi.
  - simpl. unfold mret, go_ret. rewrite !insert_id by done. by destruct h.
  - simpl. unfold mbind at 1, go_bind at 1.
    assert ((kv_set fwd k v;; vk_set inv v k) h
            = (Val tt, mkHeap (<[fwd := <[k := v]> f]> (kv_maps h))
                              (<[inv := <[v := k]> i]> (vk_maps h))
                              (bimaps h) (ibimaps h))) as ->.
    { destruct h as [kv vk bm ibm]. simpl in *. go_run. done. }
    rewrite (IH (<[k := v]> f) (<[v := k]> i)); simpl;
      [|by rewrite lookup_insert_eq..].
    by rewrite !insert_insert_eq.
Qed.
End constructor_loops.

Section constructors.
Context `{Countable K, Countable V, GoZero K, GoZero V}.
Variable kv_order : gmap K V → list (K * V).
Hypothesis kv_order_enum : ∀ m, kv_order m ≡ₚ map_to_list m.
Implicit Types (h : heap K V) (b : loc) (k : K) (v : V) (q : query K V)
  (m : gmap K V).

Lemma go_bind_Val {A B} (c : go K V A) (f : A → go K V B) h a h' :
  c h = (Val a, h') → (c ≫= f) h = f a h'.
Proof. intros Hc. unfold mbind, go_bind. by rewrite Hc. Qed.

Lemma kv_order_NoDup m : NoDup (kv_order m).*1.
Proof. rewrite kv_order_enum. apply NoDup_fst_map_to_list. Qed.

Lemma NewBiMapFromMap_exec h src m :
  kv_maps h !! src = Some m →
  NewBiMapFromMap kv_order src h =
    (Val (fresh (dom (bimaps h))),
     mkHeap (<[fresh (dom (kv_maps h)) := m]> (kv_maps h))
            (<[fresh (dom (vk_maps h)) := inverse_entries (kv_order m)]>
               (vk_maps h))
            (<[fresh (dom (bimaps h)) :=
                 mkBiMap false (fresh (dom (kv_maps h)))
                               (fresh (dom (vk_maps h)))]> (bimaps h))
            (ibimaps h)).
Proof.
  intros Hm. destruct h as [kv vk bm ibm]; simpl in *.
  pose proof (fresh_not_allocated _ _ _ Hm) as Hne.
  pose proof (for_each_Insert (kv_order m) (fresh (dom bm))
    (mkBiMap false (fresh (dom kv)) (fresh (dom vk))) ∅ ∅
    (mkHeap (<[fresh (dom kv) := ∅]> kv) (<[fresh (dom vk) := ∅]> vk)
            (<[fresh (dom bm) :=
                 mkBiMap false (fresh (dom kv)) (fresh (dom vk))]> bm) ibm))
    as Hloop.
  simpl in Hloop. rewrite !lookup_insert_eq in Hloop.
  specialize (Hloop eq_refl eq_refl eq_refl eq_refl (kv_order_NoDup m)
                (λ p _, lookup_empty _)).
  rewrite (foldl_insert_enumeration m) in Hloop by apply kv_order_enum.
  rewrite !insert_insert_eq in Hloop.
  unfold NewBiMapFromMap, kv_range, mbind, go_bind.
  assert (NewBiMap (mkHeap kv vk bm ibm)
          = (Val (fresh (dom bm)),
             mkHeap (<[fresh (dom kv) := ∅]> kv) (<[fresh (dom vk) := ∅]> vk)
                    (<[fresh (dom bm) :=
                         mkBiMap false (fresh (dom kv)) (fresh (dom vk))]> bm)
                    ibm)) as -> by reflexivity.
  unfold st_at. simpl. rewrite lookup_insert_ne, Hm by done. simpl.
  by rewrite Hloop.
Qed.

Lemma NewImmutableBiMapFromMap_exec h src m :
  kv_maps h !! src = Some m →
  Immutable.NewImmutableBiMapFromMap kv_order src h =
    (Val (fresh (dom (ibimaps h))),
     mkHeap (<[fresh (dom (kv_maps h)) := m]> (kv_maps h))
            (<[fresh (dom (vk_maps h)) := inverse_entries (kv_order m)]>
               (vk_maps h))
            (bimaps h)
            (<[fresh (dom (ibimaps h)) :=
                 mkImmutableBiMap (fresh (dom (kv_maps h)))
                                  (fresh (dom (vk_maps h)))]> (ibimaps h))).
Proof.
  intros Hm. destruct h as [kv vk bm ibm]; simpl in *.
  pose proof (fresh_not_allocated _ _ _ Hm) as Hne.
  pose proof (for_each_set_both (kv_order m) (fresh (dom kv)) (fresh (dom vk))
    ∅ ∅
    (mkHeap (<[fresh (dom kv) := ∅]> kv) (<[fresh (dom vk) := ∅]> vk) bm ibm))
    as Hloop.
  simpl in Hloop. rewrite !lookup_insert_eq in Hloop.
  specialize (Hloop eq_refl eq_refl).
  rewrite (foldl_insert_enumeration m) in Hloop by apply kv_order_enum.
  rewrite !insert_insert_eq in Hloop.
  unfold Immutable.NewImmutableBiMapFromMap.
  do 4 (erewrite go_bind_Val by reflexivity).
  erewrite go_bind_Val; cycle 1.
  { unfold kv_range, st_at. simpl. rewrite lookup_insert_ne, Hm by done.
    exact Hloop. }
  reflexivity.
Qed.
End constructors.

Section constructor_properties.
Context `{Countable K, Countable V, GoZero K, GoZero V}.
Variable kv_order : gmap K V → list (K * V).
Hypothesis kv_order_enum : ∀ m, kv_order m ≡ₚ map_to_list m.
Implicit Types (h : heap K V) (b : loc) (k : K) (v : V) (q : query K V)
  (m : gmap K V) (ws : list (map_write K V)).

Lemma inverse_entries_of_enumeration m :
  (∀ v k, inverse_entries (kv_order m) !! v = Some k → m !! k = Some v)
  ∧ (∀ k v, m !! k = Some v → is_Some (inverse_entries (kv_order m) !! v)).
Proof.
  split.
  - intros v k Hv%inverse_entries_sound. rewrite kv_order_enum in Hv.
    by apply elem_of_map_to_list.
  - intros k v Hk. apply (inverse_entries_covers _ k).
    rewrite kv_order_enum. by apply elem_of_map_to_list.
Qed.

(** X15.  [NewBiMapFromMap] on a map with entries [m] returns normally
    with a new, mutable instance and leaves the argument map as it was.
    The forward index of the instance is exactly [m].  Every value of [m]
    has an inverse entry, and each inverse entry points at a key that
    [m] maps to that value.  When no two keys of [m] share a value the
    two indices are exact inverses, whatever the order of the [range]
    loop. *)
Theorem NewBiMapFromMap_contents h src m :
  kv_maps h !! src = Some m →
  ∃ b,
    (NewBiMapFromMap kv_order src h).1 = Val b
    ∧ bimaps h !! b = None
    ∧ valid_BiMap (NewBiMapFromMap kv_order src h).2 b
    ∧ frozen (NewBiMapFromMap kv_order src h).2 b = false
    ∧ fwd_of (NewBiMapFromMap kv_order src h).2 b = m
    ∧ (∀ v k, inv_of (NewBiMapFromMap kv_order src h).2 b !! v = Some k →
              m !! k = Some v)
    ∧ (∀ k v, m !! k = Some v →
              is_Some (inv_of (NewBiMapFromMap kv_order src h).2 b !! v))
    ∧ (injective_map m →
       mutual_inverse (fwd_of (NewBiMapFromMap kv_order src h).2 b)
                      (inv_of (NewBiMapFromMap kv_order src h).2 b))
    ∧ kv_maps (NewBiMapFromMap kv_order src h).2 !! src = Some m.
Proof.
  intros Hm. pose proof (fresh_not_allocated _ _ _ Hm) as Hne.
  rewrite (NewBiMapFromMap_exec kv_order kv_order_enum h src m Hm).
  exists (fresh (dom (bimaps h))). simpl.
  assert (∀ i : gmap V K,
    fwd_of (mkHeap (<[fresh (dom (kv_maps h)) := m]> (kv_maps h))
              (<[fresh (dom (vk_maps h)) := i]> (vk_maps h))
              (<[fresh (dom (bimaps h)) :=
                   mkBiMap false (fresh (dom (kv_maps h)))
                     (fresh (dom (vk_maps h)))]> (bimaps h)) (ibimaps h))
           (fresh (dom (bimaps h))) = m
    ∧ inv_of (mkHeap (<[fresh (dom (kv_maps h)) := m]> (kv_maps h))
                (<[fresh (dom (vk_maps h)) := i]> (vk_maps h))
                (<[fresh (dom (bimaps h)) :=
                     mkBiMap false (fresh (dom (kv_maps h)))
                       (fresh (dom (vk_maps h)))]> (bimaps h)) (ibimaps h))
             (fresh (dom (bimaps h))) = i) as Hviews.
  { intros i. unfold fwd_of, inv_of, st_at. simpl.
    rewrite lookup_insert_eq. simpl. by rewrite !lookup_insert_eq. }
  destruct (Hviews (inverse_entries (kv_order m))) as [-> ->].
  destruct (inverse_entries_of_enumeration m) as [Hsound Hcover].
  split; [done|]. split; [apply not_elem_of_dom, is_fresh|].
  split.
  { eexists. simpl. rewrite lookup_insert_eq. split; [done|]. simpl.
    rewrite !lookup_insert_eq. eauto. }
  split.
  { unfold frozen. simpl. by rewrite lookup_insert_eq. }
  do 3 (split; [done|]). split.
  - intros Hinj. by apply inverse_entries_injective.
  - by rewrite lookup_insert_ne.
Qed.

(** X16.  [NewImmutableBiMapFromMap] on a map with entries [m] returns
    normally with a new [*ImmutableBiMap] and leaves the argument map as
    it was.  Its forward index is exactly [m]; every value of [m] has an
    inverse entry, each pointing at a key that [m] maps to that value;
    and when no two keys of [m] share a value the two indices are exact
    inverses, whatever the order of the [range] loop. *)
Theorem NewImmutableBiMapFromMap_contents h src m :
  kv_maps h !! src = Some m →
  ∃ b,
    (Immutable.NewImmutableBiMapFromMap kv_order src h).1 = Val b
    ∧ ibimaps h !! b = None
    ∧ valid_ImmutableBiMap (Immutable.NewImmutableBiMapFromMap kv_order src h).2 b
    ∧ ifwd_of (Immutable.NewImmutableBiMapFromMap kv_order src h).2 b = m
    ∧ (∀ v k,
         iinv_of (Immutable.NewImmutableBiMapFromMap kv_order src h).2 b !! v
         = Some k → m !! k = Some v)
    ∧ (∀ k v, m !! k = Some v →
         is_Some
           (iinv_of (Immutable.NewImmutableBiMapFromMap kv_order src h).2 b
            !! v))
    ∧ (injective_map m →
       mutual_inverse
         (ifwd_of (Immutable.NewImmutableBiMapFromMap kv_order src h).2 b)
         (iinv_of (Immutable.NewImmutableBiMapFromMap kv_order src h).2 b))
    ∧ kv_maps (Immutable.NewImmutableBiMapFromMap kv_order src h).2 !! src
      = Some m.
Proof.
  intros Hm. pose proof (fresh_not_allocated _ _ _ Hm) as Hne.
  rewrite (NewImmutableBiMapFromMap_exec kv_order kv_order_enum h src m Hm).
  exists (fresh (dom (ibimaps h))). simpl.
  assert (∀ i : gmap V K,
    ifwd_of (mkHeap (<[fresh (dom (kv_maps h)) := m]> (kv_maps h))
               (<[fresh (dom (vk_maps h)) := i]> (vk_maps h)) (bimaps h)
               (<[fresh (dom (ibimaps h)) :=
                    mkImmutableBiMap (fresh (dom (kv_maps h)))
                      (fresh (dom (vk_maps h)))]> (ibimaps h)))
            (fresh (dom (ibimaps h))) = m
    ∧ iinv_of (mkHeap (<[fresh (dom (kv_maps h)) := m]> (kv_maps h))
                 (<[fresh (dom (vk_maps h)) := i]> (vk_maps h)) (bimaps h)
                 (<[fresh (dom (ibimaps h)) :=
                      mkImmutableBiMap (fresh (dom (kv_maps h)))
                        (fresh (dom (vk_maps h)))]> (ibimaps h)))
              (fresh (dom (ibimaps h))) = i) as Hviews.
  { intros i. unfold ifwd_of, iinv_of, st_at. simpl.
    rewrite lookup_insert_eq. simpl. by rewrite !lookup_insert_eq. }
  destruct (Hviews (inverse_entries (kv_order m))) as [-> ->].
  destruct (inverse_entries_of_enumeration m) as [Hsound Hcover].
  split; [done|]. split; [apply not_elem_of_dom, is_fresh|].
  split.
  { eexists. simpl. rewrite lookup_insert_eq. split; [done|]. simpl.
    rewrite !lookup_insert_eq. eauto. }
  do 3 (split; [done|]). split.
  - intros Hinj. by apply inverse_entries_injective.
  - by rewrite lookup_insert_ne.
Qed.

(** X17.  Both constructors copy their argument: whatever is written to
    or deleted from the argument map afterwards, every read of the
    instance built from it returns what it returned right after
    construction. *)
Theorem constructors_copy_argument h src m ws q :
  kv_maps h !! src = Some m →
  (∃ b,
     (NewBiMapFromMap kv_order src h).1 = Val b
     ∧ ask b q (kv_writes src ws (NewBiMapFromMap kv_order src h).2)
       = ((ask b q (NewBiMapFromMap kv_order src h).2).1,
          kv_writes src ws (NewBiMapFromMap kv_order src h).2))
  ∧ (∃ b,
       (Immutable.NewImmutableBiMapFromMap kv_order src h).1 = Val b
       ∧ iask b q
           (kv_writes src ws
              (Immutable.NewImmutableBiMapFromMap kv_order src h).2)
         = ((iask b q (Immutable.NewImmutableBiMapFromMap kv_order src h).2).1,
            kv_writes src ws
              (Immutable.NewImmutableBiMapFromMap kv_order src h).2)).
Proof.
  intros Hm. pose proof (fresh_not_allocated _ _ _ Hm) as Hne. split.
  - rewrite (NewBiMapFromMap_exec kv_order kv_order_enum h src m Hm).
    exists (fresh (dom (bimaps h))). split; [done|]. simpl.
    set (h' := mkHeap _ _ _ _).
    destruct (kv_writes_frame src ws h') as (Hkv & Hvk & Hbm & _).
    assert (bimaps h' !! fresh (dom (bimaps h))
            = Some (mkBiMap false (fresh (dom (kv_maps h)))
                      (fresh (dom (vk_maps h))))) as Hb
      by apply lookup_insert_eq.
    rewrite !ask_exec by (rewrite ?Hbm; eauto). simpl.
    unfold fwd_of, inv_of, st_at. rewrite Hbm, Hb. simpl.
    rewrite Hvk, Hkv by done. done.
  - rewrite (NewImmutableBiMapFromMap_exec kv_order kv_order_enum h src m Hm).
    exists (fresh (dom (ibimaps h))). split; [done|]. simpl.
    set (h' := mkHeap _ _ _ _).
    destruct (kv_writes_frame src ws h') as (Hkv & Hvk & _ & Hib).
    apply (iask_frame h' _ _ (mkImmutableBiMap (fresh (dom (kv_maps h)))
                                 (fresh (dom (vk_maps h))))).
    + apply lookup_insert_eq.
    + rewrite Hib. apply lookup_insert_eq.
    + simpl. by rewrite Hkv.
    + simpl. by rewrite Hvk.
Qed.
End constructor_properties.

Section constructors_agree.
Context `{Countable K, Countable V, GoZero K, GoZero V}.
Variable kv_order kv_order' : gmap K V → list (K * V).
Hypothesis kv_order_enum : ∀ m, kv_order m ≡ₚ map_to_list m.
Hypothesis kv_order_enum' : ∀ m, kv_order' m ≡ₚ map_to_list m.
Implicit Types (h : heap K V) (b : loc) (k : K) (v : V) (q : query K V)
  (m : gmap K V).

(** X18.  On a map in which no two keys share a value, the two
    constructors build the same bimap: whatever the order in which each
    of them ranges over the map, every read of the instance returned by
    [NewBiMapFromMap] gives the answer that the same read of the one
    returned by [NewImmutableBiMapFromMap] gives. *)
Theorem constructors_agree_on_injective h src m :
  kv_maps h !! src = Some m → injective_map m →
  ∃ b ib,
    (NewBiMapFromMap kv_order src h).1 = Val b
    ∧ (Immutable.NewImmutableBiMapFromMap kv_order' src h).1 = Val ib
    ∧ ∀ q, (ask b q (NewBiMapFromMap kv_order src h).2).1
           = (iask ib q (Immutable.NewImmutableBiMapFromMap kv_order' src h).2).1.
Proof.
  intros Hm Hinj.
  rewrite (NewBiMapFromMap_exec kv_order kv_order_enum h src m Hm).
  rewrite (NewImmutableBiMapFromMap_exec kv_order' kv_order_enum' h src m Hm).
  exists (fresh (dom (bimaps h))), (fresh (dom (ibimaps h))).
  do 2 (split; [done|]). intros q. simpl.
  rewrite ask_exec by (simpl; rewrite lookup_insert_eq; eauto).
  rewrite iask_exec by (simpl; rewrite lookup_insert_eq; eauto).
  simpl. unfold fwd_of, inv_of, ifwd_of, iinv_of, st_at. simpl.
  rewrite !lookup_insert_eq. simpl. f_equal. f_equal.
  apply (mutual_inverse_unique m); by apply inverse_entries_injective.
Qed.
End constructors_agree.

Section constructor_collision.
Context `{Countable K, Countable V, GoZero K, GoZero V}.
Variable kv_order : gmap K V → list (K * V).
Hypothesis kv_order_enum : ∀ m, kv_order m ≡ₚ map_to_list m.
Implicit Types (h : heap K V) (b : loc) (k : K) (v : V) (m : gmap K V).

(** X19.  [NewBiMapFromMap] does not check its argument: when two
    different keys of the map have the same value, the instance it
    returns keeps both forward entries but has a single inverse entry
    for that value, so it does not satisfy the bijection property,
    whatever the order of the [range] loop. *)
Theorem NewBiMapFromMap_repeated_value h src m k1 k2 v :
  kv_maps h !! src = Some m →
  m !! k1 = Some v → m !! k2 = Some v → k1 ≠ k2 →
  ∃ b,
    (NewBiMapFromMap kv_order src h).1 = Val b
    ∧ fwd_of (NewBiMapFromMap kv_order src h).2 b !! k1 = Some v
    ∧ fwd_of (NewBiMapFromMap kv_order src h).2 b !! k2 = Some v
    ∧ ¬ bijective (NewBiMapFromMap kv_order src h).2 b.
Proof.
  intros Hm Hk1 Hk2 Hne.
  rewrite (NewBiMapFromMap_exec kv_order kv_order_enum h src m Hm).
  exists (fresh (dom (bimaps h))). simpl. split; [done|].
  unfold bijective, fwd_of, inv_of, st_at. simpl.
  rewrite !lookup_insert_eq. simpl.
  do 2 (split; [done|]). intros [Hbij _].
  pose proof (Hbij k1 v Hk1) as H1'. pose proof (Hbij k2 v Hk2) as H2'.
  congruence.
Qed.
End constructor_collision.

(** ** Instances of the further properties on [BiMap[string, int]] *)

Lemma Insert_then_lookup_witness :
  valid_BiMap heap_a b1 ∧ frozen heap_a b1 = false
  ∧ GetByKey b1 "b" (Insert b1 "b" 2 heap_a).2
    = (Val (2, true), (Insert b1 "b" 2 heap_a).2)
  ∧ GetByValue b1 2 (Insert b1 "b" 2 heap_a).2
    = (Val ("b", true), (Insert b1 "b" 2 heap_a).2).
Proof.
  split; [apply valid_heap_a|]. split; [reflexivity|].
  destruct (Insert_then_lookup heap_a b1 "b" 2 valid_heap_a eq_refl)
    as (Hk & Hv & _ & _).
  split; [exact Hk | exact Hv].
Defined.

Lemma Insert_other_entries_witness :
  valid_BiMap heap_a b1 ∧ frozen heap_a b1 = false
  ∧ GetByKey b1 "a" (Insert b1 "b" 2 heap_a).2
    = ((GetByKey b1 "a" heap_a).1, (Insert b1 "b" 2 heap_a).2)
  ∧ GetByValue b1 1 (Insert b1 "b" 2 heap_a).2
    = ((GetByValue b1 1 heap_a).1, (Insert b1 "b" 2 heap_a).2).
Proof.
  split; [apply valid_heap_a|]. split; [reflexivity|].
  destruct (Insert_other_entries heap_a b1 "b" 2 "a" 1 valid_heap_a eq_refl)
    as [Hk Hv].
  split; [apply Hk; discriminate | apply Hv; discriminate].
Defined.

Lemma Size_after_mutation_witness :
  valid_BiMap heap_a b1 ∧ frozen heap_a b1 = false
  ∧ (Size b1 (Insert b1 "b" 2 heap_a).2).1 = Val 2
  ∧ (Size b1 (DeleteByKey b1 "b" heap_a).2).1 = Val 1.
Proof.
  split; [apply valid_heap_a|]. split; [reflexivity|].
  destruct (Size_after_mutation heap_a b1 "b" 2 valid_heap_a eq_refl)
    as [Hi Hd].
  split; [exact Hi | exact Hd].
Defined.

Lemma Insert_Delete_round_trip_witness :
  valid_BiMap heap_a b1 ∧ frozen heap_a b1 = false
  ∧ fwd_of heap_a b1 !! "b" = None ∧ inv_of heap_a b1 !! 2 = None
  ∧ DeleteByKey b1 "b" (Insert b1 "b" 2 heap_a).2 = (Val tt, heap_a)
  ∧ DeleteByValue b1 2 (Insert b1 "b" 2 heap_a).2 = (Val tt, heap_a).
Proof.
  split; [apply valid_heap_a|]. do 3 (split; [reflexivity|]).
  exact (Insert_Delete_round_trip heap_a b1 "b" 2 valid_heap_a
           eq_refl eq_refl eq_refl).
Defined.

Lemma Delete_either_side_witness :
  valid_BiMap heap_ab b1 ∧ frozen heap_ab b1 = false
  ∧ fwd_of heap_ab b1 !! "b" = Some 2 ∧ inv_of heap_ab b1 !! 2 = Some "b"
  ∧ DeleteByKey b1 "b" heap_ab = DeleteByValue b1 2 heap_ab.
Proof.
  split; [apply valid_heap_ab|]. do 3 (split; [reflexivity|]).
  exact (Delete_either_side heap_ab b1 "b" 2 valid_heap_ab
           eq_refl eq_refl eq_refl).
Defined.

Lemma lookups_inverse_along_runs_witness :
  NewBiMap empty_heap = (Val b1, heap_new)
  ∧ collision_free b1 fruit_ops heap_new
  ∧ Forall (λ r, ∀ k v, (GetByKey b1 k r.2).1 = Val (v, true)
                        ↔ (GetByValue b1 v r.2).1 = Val (k, true))
           (trace b1 fruit_ops heap_new).
Proof.
  assert (collision_free b1 fruit_ops heap_new) as Hcf.
  { apply (bool_decide_unpack _). vm_compute. exact I. }
  split; [reflexivity|]. split; [exact Hcf|].
  exact (lookups_inverse_along_runs empty_heap b1 heap_new fruit_ops
           eq_refl Hcf).
Defined.

Lemma collision_then_delete_witness :
  valid_BiMap heap_a b1 ∧ frozen heap_a b1 = false
  ∧ fwd_of heap_a b1 !! "a" = Some 1 ∧ "b" ≠ "a"
  ∧ fwd_of heap_a b1 !! "b" = None
  ∧ (GetByKey b1 "b" (DeleteByKey b1 "a" heap_collide).2).1 = Val (1, true)
  ∧ (ExistsByValue b1 1 (DeleteByKey b1 "a" heap_collide).2).1 = Val false.
Proof.
  assert ("b" ≠ "a") as Hne by discriminate.
  split; [apply valid_heap_a|]. split; [reflexivity|]. split; [reflexivity|].
  split; [exact Hne|]. split; [reflexivity|].
  destruct (collision_then_delete heap_a b1 "a" "b" 1
              valid_heap_a eq_refl eq_refl Hne eq_refl)
    as (_ & _ & Hk & Hv & _).
  split; [exact Hk | exact Hv].
Defined.

Lemma live_maps_alias_witness :
  bimaps (MakeImmutable b1 heap_a).2 !! b1
    = Some (mkBiMap true 1%positive 1%positive)
  ∧ is_Some (kv_maps (MakeImmutable b1 heap_a).2 !! 1%positive)
  ∧ (GetByKey b1 "z" (source_do b1 (SForwardSet "z" 9)
                        (MakeImmutable b1 heap_a).2).2).1 = Val (9, true).
Proof.
  assert (is_Some (kv_maps (MakeImmutable b1 heap_a).2 !! 1%positive)) as Hf.
  { vm_compute. eauto. }
  split; [reflexivity|]. split; [exact Hf|].
  destruct (live_maps_alias (MakeImmutable b1 heap_a).2 b1
              (mkBiMap true 1%positive 1%positive) "z" 9 eq_refl Hf)
    as (_ & _ & _ & Hg & _).
  exact Hg.
Defined.

Lemma zero_value_BiMap_witness :
  bimaps heap_zero !! b1 = Some (mkBiMap false 1%positive 1%positive)
  ∧ kv_maps heap_zero !! 1%positive = None
  ∧ vk_maps heap_zero !! 1%positive = None
  ∧ Insert b1 "a" 1 heap_zero = (Panic nil_map_write, heap_zero)
  ∧ DeleteByKey b1 "a" heap_zero = (Val tt, heap_zero).
Proof.
  do 3 (split; [reflexivity|]).
  destruct (zero_value_BiMap heap_zero b1 (mkBiMap false 1%positive 1%positive)
              "a" 1 eq_refl eq_refl eq_refl eq_refl)
    as (Hi & Hd & _ & _).
  split; [exact Hi | exact Hd].
Defined.

Lemma valid_heap_two : valid_BiMap heap_two b2.
Proof. exists (mkBiMap false 2%positive 2%positive). vm_compute. eauto. Qed.

Lemma apart_heap_two : apart heap_two b2 b1.
Proof.
  exists (mkBiMap false 2%positive 2%positive),
         (mkBiMap false 1%positive 1%positive).
  repeat split; try reflexivity; discriminate.
Qed.

Lemma instances_independent_witness :
  valid_BiMap heap_two b2 ∧ apart heap_two b2 b1
  ∧ ask b1 QSize (source_run b2 [SMutate (MInsert "a" 7); SMakeImmutable] heap_two)
    = ((ask b1 QSize heap_two).1,
       source_run b2 [SMutate (MInsert "a" 7); SMakeImmutable] heap_two)
  ∧ frozen (source_run b2 [SMutate (MInsert "a" 7); SMakeImmutable] heap_two) b1
    = frozen heap_two b1.
Proof.
  split; [apply valid_heap_two|]. split; [apply apart_heap_two|].
  exact (instances_independent heap_two b2 b1 valid_heap_two apart_heap_two
           [SMutate (MInsert "a" 7); SMakeImmutable] QSize).
Defined.

Lemma reads_agree_witness :
  is_Some (bimaps heap_a !! b1)
  ∧ ∃ val ok,
      GetByKey b1 "missing" heap_a = (Val (val, ok), heap_a)
      ∧ ExistsByKey b1 "missing" heap_a = (Val ok, heap_a)
      ∧ GetByKeyWithFallback b1 "missing" (-1) heap_a
        = (Val (if ok then val else -1), heap_a)
      ∧ (ok = false → val = go_zero).
Proof.
  assert (is_Some (bimaps heap_a !! b1)) as Hb.
  { exists (mkBiMap false 1%positive 1%positive). reflexivity. }
  split; [exact Hb|].
  exact (proj1 (reads_agree heap_a b1 "missing" 0 (-1) "" Hb)).
Defined.

Lemma Immutable_reads_agree_witness :
  is_Some (ibimaps heap_frozen !! s1)
  ∧ Immutable.Size s1 heap_frozen
    = (Val (Z.of_nat (size (ifwd_of heap_frozen s1))), heap_frozen).
Proof.
  assert (is_Some (ibimaps heap_frozen !! s1)) as Hs.
  { exists (mkImmutableBiMap 2%positive 2%positive). reflexivity. }
  split; [exact Hs|].
  exact (proj2 (proj2 (Immutable_reads_agree heap_frozen s1 "a" 1 0 "" Hs))).
Defined.

Lemma heap_src_contents :
  kv_maps heap_src !! src1 = Some (<["y" := 20]> (<["x" := 10]> ∅)).
Proof. reflexivity. Qed.

Lemma heap_src_injective :
  injective_map (<["y" := 20]> (<["x" := 10]> (∅ : gmap string Z))).
Proof.
  intros k1 k2 v Hk1 Hk2.
  destruct (decide (k1 = "y")), (decide (k2 = "y")),
    (decide (k1 = "x")), (decide (k2 = "x")); by simplify_map_eq.
Qed.

Lemma heap_dup_contents :
  kv_maps heap_dup !! src1 = Some (<["b" := 1]> (<["a" := 1]> ∅)).
Proof. reflexivity. Qed.

Lemma NewBiMapFromMap_contents_witness :
  kv_maps heap_src !! src1 = Some (<["y" := 20]> (<["x" := 10]> ∅))
  ∧ ∃ b,
      (NewBiMapFromMap map_to_list src1 heap_src).1 = Val b
      ∧ fwd_of (NewBiMapFromMap map_to_list src1 heap_src).2 b
        = <["y" := 20]> (<["x" := 10]> ∅)
      ∧ mutual_inverse (fwd_of (NewBiMapFromMap map_to_list src1 heap_src).2 b)
                       (inv_of (NewBiMapFromMap map_to_list src1 heap_src).2 b).
Proof.
  split; [exact heap_src_contents|].
  destruct (NewBiMapFromMap_contents map_to_list enum_refl heap_src src1 _
              heap_src_contents)
    as (b & Hb & _ & _ & _ & Hf & _ & _ & Hinj & _).
  exists b. split; [exact Hb|]. split; [exact Hf|].
  exact (Hinj heap_src_injective).
Defined.

Lemma NewImmutableBiMapFromMap_contents_witness :
  kv_maps heap_src !! src1 = Some (<["y" := 20]> (<["x" := 10]> ∅))
  ∧ ∃ b,
      (Immutable.NewImmutableBiMapFromMap map_to_list src1 heap_src).1 = Val b
      ∧ ifwd_of (Immutable.NewImmutableBiMapFromMap map_to_list src1 heap_src).2 b
        = <["y" := 20]> (<["x" := 10]> ∅).
Proof.
  split; [exact heap_src_contents|].
  destruct (NewImmutableBiMapFromMap_contents map_to_list enum_refl heap_src
              src1 _ heap_src_contents)
    as (b & Hb & _ & _ & Hf & _).
  exists b. split; [exact Hb | exact Hf].
Defined.

Lemma constructors_copy_argument_witness :
  kv_maps heap_src !! src1 = Some (<["y" := 20]> (<["x" := 10]> ∅))
  ∧ ∃ b,
      (Immutable.NewImmutableBiMapFromMap map_to_list src1 heap_src).1 = Val b
      ∧ iask b QSize
          (kv_writes src1 [WSet "z" 30; WDelete "x"]
             (Immutable.NewImmutableBiMapFromMap map_to_list src1 heap_src).2)
        = ((iask b QSize
              (Immutable.NewImmutableBiMapFromMap map_to_list src1 heap_src).2).1,
           kv_writes src1 [WSet "z" 30; WDelete "x"]
             (Immutable.NewImmutableBiMapFromMap map_to_list src1 heap_src).2).
Proof.
  split; [exact heap_src_contents|].
  exact (proj2 (constructors_copy_argument map_to_list enum_refl heap_src src1 _
                  [WSet "z" 30; WDelete "x"] QSize heap_src_contents)).
Defined.

Lemma constructors_agree_on_injective_witness :
  kv_maps heap_src !! src1 = Some (<["y" := 20]> (<["x" := 10]> ∅))
  ∧ injective_map (<["y" := 20]> (<["x" := 10]> (∅ : gmap string Z)))
  ∧ ∃ b ib,
      (NewBiMapFromMap map_to_list src1 heap_src).1 = Val b
      ∧ (Immutable.NewImmutableBiMapFromMap (λ m, reverse (map_to_list m))
           src1 heap_src).1 = Val ib
      ∧ ∀ q, (ask b q (NewBiMapFromMap map_to_list src1 heap_src).2).1
             = (iask ib q
                  (Immutable.NewImmutableBiMapFromMap
                     (λ m, reverse (map_to_list m)) src1 heap_src).2).1.
Proof.
  split; [exact heap_src_contents|]. split; [exact heap_src_injective|].
  exact (constructors_agree_on_injective map_to_list
           (λ m, reverse (map_to_list m)) enum_refl
           (λ m, reverse_Permutation (map_to_list m))
           heap_src src1 _ heap_src_contents heap_src_injective).
Defined.

Lemma NewBiMapFromMap_repeated_value_witness :
  kv_maps heap_dup !! src1 = Some (<["b" := 1]> (<["a" := 1]> ∅))
  ∧ ∃ b,
      (NewBiMapFromMap map_to_list src1 heap_dup).1 = Val b
      ∧ fwd_of (NewBiMapFromMap map_to_list src1 heap_dup).2 b !! "a" = Some 1
      ∧ fwd_of (NewBiMapFromMap map_to_list src1 heap_dup).2 b !! "b" = Some 1
      ∧ ¬ bijective (NewBiMapFromMap map_to_list src1 heap_dup).2 b.
Proof.
  assert ("a" ≠ "b") as Hne by discriminate.
  split; [exact heap_dup_contents|].
  exact (NewBiMapFromMap_repeated_value map_to_list enum_refl heap_dup src1 _
           "a" "b" 1 heap_dup_contents eq_refl eq_refl Hne).
Defined.
